(** * Vectorized functions: dispatch engine and elementwise fallback

    A shallow embedding of [src/vectorized.ts]: the [vectorized] decorator,
    the abstract [VectorFunction] with its [call], and [ArrayVectorFunction]
    with its constructor and [vectorizeSingularCall].  The repository also
    carries two earlier revisions of the engine under [unnamed/]: one that
    takes a list of indices ([part_000]) and one with a single vectorized
    position ([part_001]); their [call]s are embedded next to the current
    one and related to it.

    Arrays that are written after their creation, or that the caller can
    reach, live in a store of arrays addressed by location, and an argument
    that is an array is a reference into that store.  Arrays that the engine
    creates, never writes again and never hands out (the rest parameter
    [params], the results of [map] and the static [slice]) are immutable
    lists.  A function value takes a receiver, its arguments and the state
    (arrays and objects) and returns or throws; the metadata that the
    decorator writes with [Reflect.defineMetadata] is a registry that is
    fixed when calls are made.  The engine runs in a state and exception
    monad whose state also records every call of the scalar method. *)

From Stdlib Require Import ZArith Sorted.
From stdpp Require Import base option list strings.

Open Scope string_scope.
Open Scope nat_scope.
Open Scope list_scope.

(** ** Values, exceptions, outcomes *)

Abbreviation loc := nat.

(** The values the engine handles: [undefined], numbers, and references to
    arrays.  A hole of a sparse array reads as [undefined]. *)
Inductive value : Type :=
| VUndef
| VNum (n : Z)
| VRef (l : loc).

#[global] Instance value_eq_dec : EqDecision value.
Proof. solve_decision. Defined.

(** Property keys: strings and symbols. *)
Inductive key : Type :=
| KStr (s : string)
| KSym (id : nat) (description : string).

#[global] Instance key_eq_dec : EqDecision key.
Proof. solve_decision. Defined.

(** What a [throw] carries: [new Error(message)], the runtime's own
    [TypeError] and [RangeError], or whatever a method of the target throws. *)
Inductive exn : Type :=
| Error (message : string)
| TypeError
| RangeError
| Raised (v : value).

Inductive outcome (A : Type) : Type :=
| Ret (a : A)
| Throw (e : exn).
Arguments Ret {A} a.
Arguments Throw {A} e.

Definition is_Ret {A} (o : outcome A) : bool :=
  match o with Ret _ => true | Throw _ => false end.

(** The two errors the engine raises itself. *)
Definition ConfigurationError : exn := Error "Must have at least one vectorized parameter".
Definition LengthMismatchError : exn := Error "Vector lengths not equal".

(** ** The store of arrays *)

Abbreviation store := (list (list value)).

Definition deref (σ : store) (l : loc) : list value := default [] (σ !! l).

(** [a[j] = v]: in range it overwrites, out of range the array grows and the
    skipped positions are holes. *)
Definition js_set (j : nat) (v : value) (a : list value) : list value :=
  if decide (j < length a) then <[j := v]> a
  else a ++ replicate (j - length a) VUndef ++ [v].

(** [v == w] on the values above. *)
Definition loose_eq (v w : value) : bool := bool_decide (v = w).

(** Truthiness. *)
Definition truthy (v : value) : bool :=
  match v with
  | VUndef => false
  | VNum n => negb (n =? 0)%Z
  | VRef _ => true
  end.

Definition truthy_key (k : key) : bool :=
  match k with
  | KStr s => negb (bool_decide (s = ""))
  | KSym _ _ => true
  end.

(** [String(propertyKey)] *)
Definition String_of_key (k : key) : string :=
  match k with
  | KStr s => s
  | KSym _ d => "Symbol(" +:+ d +:+ ")"
  end.

(** [params[index]]: reading past the end gives [undefined]. *)
Definition param (params : list value) (index : nat) : value :=
  default VUndef (params !! index).

Section Engine.

(** Objects (targets and the objects on their prototype chains) and the part
    of the program state that is not an array. *)
Context {Obj St : Type} `{EqDecision Obj}.

(** A function value: called with a receiver and an argument list, it may
    read and change the arrays and the objects, and returns or throws. *)
Definition fn : Type := Obj → list value → store * St → outcome value * (store * St).

(** What reading a member of an object gives: a function or another value
    ([MVal VUndef] when there is no such member). *)
Inductive member : Type :=
| MFun (f : fn)
| MVal (v : value).

(** What the decorator stores: a member name or a function value. *)
Inductive special : Type :=
| SKey (k : key)
| SFun (f : fn).

(** [protoChain o] is [o] followed by its prototypes, nearest first;
    [getMember st o k] is [o[k]] in the current state of the objects. *)
Context (protoChain : Obj → list Obj) (getMember : St → Obj → key → member).

(** One invocation of the scalar method by the engine: the arguments it was
    given and how it came back. *)
Definition event : Type := list value * outcome value.

Record state : Type := State {
  arrays : store;
  objects : St;
  invocations : list event
}.

(** ** The engine's monad: state and exceptions *)

Definition M (A : Type) : Type := state → outcome A * state.

Definition ret {A} (a : A) : M A := λ s, (Ret a, s).
Definition throw {A} (e : exn) : M A := λ s, (Throw e, s).
Definition bind {A B} (c : M A) (k : A → M B) : M B :=
  λ s, match c s with
       | (Ret a, s') => k a s'
       | (Throw e, s') => (Throw e, s')
       end.

Notation "x <- c ;; k" := (bind c (λ x, k))
  (at level 100, c at next level, right associativity).
Notation "c ;;; k" := (bind c (λ _, k))
  (at level 100, right associativity).

Fixpoint for_each {A} (l : list A) (body : A → M unit) : M unit :=
  match l with
  | [] => ret tt
  | x :: l' => body x ;;; for_each l' body
  end.

Fixpoint map_M {A B} (f : A → M B) (l : list A) : M (list B) :=
  match l with
  | [] => ret []
  | x :: l' => y <- f x ;; ys <- map_M f l' ;; ret (y :: ys)
  end.

(** *** Primitive operations on arrays *)

(** A fresh array. *)
Definition alloc (a : list value) : M loc :=
  λ s, (Ret (length (arrays s)),
        State (arrays s ++ [a]) (objects s) (invocations s)).

(** The current contents of an array (as spread by [...a]). *)
Definition contents (l : loc) : M (list value) :=
  λ s, (Ret (deref (arrays s) l), s).

(** [a[j] = v] for the array at [l]. *)
Definition assign (l : loc) (j : nat) (v : value) : M unit :=
  λ s, (Ret tt, State (alter (js_set j v) l (arrays s)) (objects s) (invocations s)).

(** [v.length] *)
Definition get_length (v : value) : M value :=
  λ s, match v with
       | VUndef => (Throw TypeError, s)
       | VNum _ => (Ret VUndef, s)
       | VRef l => (Ret (VNum (Z.of_nat (length (deref (arrays s) l)))), s)
       end.

(** [v[i]] *)
Definition get_index (v : value) (i : nat) : M value :=
  λ s, match v with
       | VUndef => (Throw TypeError, s)
       | VNum _ => (Ret VUndef, s)
       | VRef l => (Ret (default VUndef (deref (arrays s) l !! i)), s)
       end.

(** [new Array(len)]: a number gives that many holes, any other value a
    one-element array holding it. *)
Definition Array_of_length (len : value) : outcome (list value) :=
  match len with
  | VNum n => if decide (0 ≤ n)%Z then Ret (replicate (Z.to_nat n) VUndef)
              else Throw RangeError
  | v => Ret [v]
  end.

Definition new_Array (len : value) : M (loc * nat) :=
  match Array_of_length len with
  | Ret a => l <- alloc a ;; ret (l, length a)
  | Throw e => throw e
  end.

(** *** Calling functions *)

(** [f.call(this, ...args)] for a function value. *)
Definition apply_fn (f : fn) (this : Obj) (args : list value) : M value :=
  λ s, match f this args (arrays s, objects s) with
       | (r, (σ, st)) => (r, State σ st (invocations s))
       end.

(** [m.call(this, ...args)] for whatever a member read gave. *)
Definition call_member (m : member) (this : Obj) (args : list value) : M value :=
  match m with
  | MFun f => apply_fn f this args
  | MVal _ => throw TypeError
  end.

(** A call of the scalar method, recorded in [invocations]. *)
Definition invoke_scalar (f : fn) (this : Obj) (args : list value) : M value :=
  λ s, match f this args (arrays s, objects s) with
       | (r, (σ, st)) => (r, State σ st (invocations s ++ [(args, r)]))
       end.

Definition truthy_member (m : member) : bool :=
  match m with
  | MFun _ => true
  | MVal v => truthy v
  end.

Definition truthy_special (sp : special) : bool :=
  match sp with
  | SKey k => truthy_key k
  | SFun _ => true
  end.

(** ** The specialization registry (metadata under [vectorizedKey]) *)

(** The metadata an object carries itself, per property key. *)
Definition registry : Type := Obj → key → option special.

Definition no_metadata : registry := λ _ _, None.

(** [Reflect.defineMetadata(vectorizedKey, v, o, p)] *)
Definition defineMetadata (v : special) (o : Obj) (p : key) (r : registry) : registry :=
  λ o' p', if decide (o' = o ∧ p' = p) then Some v else r o' p'.

(** [Reflect.getMetadata(vectorizedKey, target, p)]: the metadata of the
    nearest object on the prototype chain that carries some. *)
Fixpoint getMetadata_along (r : registry) (chain : list Obj) (p : key) : option special :=
  match chain with
  | [] => None
  | o :: chain' =>
      match r o p with
      | Some v => Some v
      | None => getMetadata_along r chain' p
      end
  end.

Definition getMetadata (r : registry) (target : Obj) (p : key) : option special :=
  getMetadata_along r (protoChain target) p.

(** The decorator [vectorized(specialVersion)(target, propertyKey)]. *)
Definition vectorized (specialVersion : option special)
    (target : Obj) (propertyKey : key) (r : registry) : registry :=
  defineMetadata
    (default (SKey (KStr (String_of_key propertyKey +:+ "_vectorized"))) specialVersion)
    target propertyKey r.

(** ** [VectorFunction.call] ([src/vectorized.ts]) *)

(** The first statements of [call]: [specialized] and [specializedFunction]. *)
Definition specializedFunction_of (r : registry) (method : key) (target : Obj) : M member :=
  λ s,
    let specialized := getMetadata r target method in
    (Ret match specialized with
         | Some sp =>
             if truthy_special sp then
               match sp with
               | SFun f => MFun f
               | SKey k => getMember (objects s) target k
               end
             else MVal VUndef
         | None => MVal VUndef
         end, s).

(** [call], over the abstract method [vectorizeSingularCall]. *)
Definition VectorFunction_call
    (vectorizeSingularCall : Obj → member → list value → M value)
    (r : registry) (method : key) (target : Obj) (params : list value) : M value :=
  specializedFunction <- specializedFunction_of r method target ;;
  if truthy_member specializedFunction
  then call_member specializedFunction target params
  else λ s, vectorizeSingularCall target (getMember (objects s) target method) params s.

(** ** [ArrayVectorFunction] ([src/vectorized.ts]) *)

Record ArrayVectorFunction : Type := {
  method : key;
  vectorizedParameterFlags : list bool;
  vectorizedParameterIndices : list nat;
  sliceIndex : nat
}.

(** [flags.map((flag, index) => ({ flag, index })).filter(({ flag }) => flag)
         .map(({ index }) => index)] *)
Definition indices_of_flags (flags : list bool) : list nat :=
  map snd (List.filter fst (imap (λ index flag, (flag, index)) flags)).

(** [Math.min(index, ...rest)] *)
Definition Math_min (index : nat) (rest : list nat) : nat := foldl Nat.min index rest.

(** The constructor: it throws when no flag is set, and otherwise takes the
    least index as [sliceIndex]. *)
Definition new_ArrayVectorFunction (method : key) (flags : list bool)
    : outcome ArrayVectorFunction :=
  match indices_of_flags flags with
  | [] => Throw (Error "Must have at least one vectorized parameter")
  | index :: rest =>
      Ret {| method := method;
             vectorizedParameterFlags := flags;
             vectorizedParameterIndices := index :: rest;
             sliceIndex := Math_min index rest |}
  end.

(** The length check at the head of the fallback. *)
Definition check_lengths (indices : list nat) (params : list value) : M unit :=
  if decide (1 < length indices) then
    lengths <- map_M (λ index, get_length (param params index)) indices ;;
    if existsb (λ length, negb (loose_eq length (default VUndef (lengths !! 0)))) lengths
    then throw (Error "Vector lengths not equal")
    else ret tt
  else ret tt.

(** [singularMethod.bind(target, ...staticArgs)]; each call of the bound
    function is a call of the scalar method. *)
Definition bind_method (singularMethod : member) (target : Obj) (staticArgs : list value)
    : M (list value → M value) :=
  match singularMethod with
  | MFun f => ret (λ args, invoke_scalar f target (staticArgs ++ args))
  | MVal _ => throw TypeError
  end.

(** The inner loop of iteration [i]: every vectorized position of the
    dynamic window receives element [i] of its array. *)
Definition substitute (indices : list nat) (items : list value) (sliceIndex : nat)
    (dynamicArgs : loc) (i : nat) : M unit :=
  for_each (zip indices items) (λ vectorizedParameter,
    v <- get_index vectorizedParameter.2 i ;;
    assign dynamicArgs (vectorizedParameter.1 - sliceIndex) v).

(** The body of the outer loop. *)
Definition iteration (indices : list nat) (items : list value) (sliceIndex : nat)
    (dynamicArgs result : loc) (method : list value → M value) (i : nat) : M unit :=
  substitute indices items sliceIndex dynamicArgs i ;;;
  args <- contents dynamicArgs ;;
  r <- method args ;;
  assign result i r.

(** The elementwise loop, from [const items] to [return result].  The array
    [result] is reachable by the engine alone until it is returned, so the
    bound [result.length] of the loop is the length it was created with.
    Every index is at least [sliceIndex] (their minimum), so the offset
    [vectorizedParameterIndex - sliceIndex] is never negative. *)
Definition elementwise (indices : list nat) (sliceIndex : nat)
    (target : Obj) (singularMethod : member) (params : list value) : M value :=
  let items := map (param params) indices in
  len <- get_length (default VUndef (items !! 0)) ;;
  created <- new_Array len ;;
  let result := created.1 in
  let staticArgs := take sliceIndex params in
  dynamicArgs <- alloc (drop sliceIndex params) ;;
  method <- bind_method singularMethod target staticArgs ;;
  for_each (seq 0 created.2)
    (iteration indices items sliceIndex dynamicArgs result method) ;;;
  ret (VRef result).

Definition vectorizeSingularCall (this : ArrayVectorFunction)
    (target : Obj) (singularMethod : member) (params : list value) : M value :=
  check_lengths (vectorizedParameterIndices this) params ;;;
  elementwise (vectorizedParameterIndices this) (sliceIndex this)
    target singularMethod params.

(** [call] as [ArrayVectorFunction] inherits it. *)
Definition call (this : ArrayVectorFunction) (r : registry)
    (target : Obj) (params : list value) : M value :=
  VectorFunction_call (vectorizeSingularCall this) r (method this) target params.

(** ** The index-list revision of the engine

    The earlier [VectorFunction] that takes the vectorized positions as a
    list of indices (default [[0]]).  Its [call] checks the lengths first,
    then looks the specialization up, and runs the same elementwise loop. *)

Record IndexVectorFunction : Type := {
  ivf_method : key;
  ivf_vectorizedParameterIndices : list nat;
  ivf_sliceIndex : nat
}.

Definition new_IndexVectorFunction (method : key)
    (vectorizedParameterIndices : option (list nat)) : outcome IndexVectorFunction :=
  match default [0] vectorizedParameterIndices with
  | [] => Throw (Error "Must have at least one vectorized parameter")
  | index :: rest =>
      Ret {| ivf_method := method;
             ivf_vectorizedParameterIndices := index :: rest;
             ivf_sliceIndex := Math_min index rest |}
  end.

Definition call_indexed (this : IndexVectorFunction) (r : registry)
    (target : Obj) (params : list value) : M value :=
  check_lengths (ivf_vectorizedParameterIndices this) params ;;;
  specializedFunction <- specializedFunction_of r (ivf_method this) target ;;
  if truthy_member specializedFunction
  then call_member specializedFunction target params
  else λ s, elementwise (ivf_vectorizedParameterIndices this) (ivf_sliceIndex this)
              target (getMember (objects s) target (ivf_method this)) params s.

(** ** The single-index revision of the engine

    The earliest [VectorFunction]: one vectorized position (default [0]) and
    no constructor check.  Its loop runs while [i < items.length], where
    [items] is the array of the caller, so the bound is read again before
    every iteration; the loop is given fuel, and [None] means that the fuel
    ran out. *)

Record SingleVectorFunction : Type := {
  svf_method : key;
  svf_vectorizedParameterIndex : nat
}.

Definition new_SingleVectorFunction (method : key)
    (vectorizedParameterIndex : option nat) : SingleVectorFunction :=
  {| svf_method := method;
     svf_vectorizedParameterIndex := default 0 vectorizedParameterIndex |}.

(** [i < len] for the counter and what [items.length] gave. *)
Definition below (i : nat) (len : value) : bool :=
  match len with
  | VNum n => bool_decide (Z.of_nat i < n)%Z
  | _ => false
  end.

(** The body of the loop. *)
Definition single_iteration (items : value) (dynamicArgs result : loc)
    (method : list value → M value) (i : nat) : M unit :=
  (v <- get_index items i ;; assign dynamicArgs 0 v) ;;;
  args <- contents dynamicArgs ;;
  r <- method args ;;
  assign result i r.

Fixpoint single_loop (fuel : nat) (items : value) (dynamicArgs result : loc)
    (method : list value → M value) (i : nat) (s : state)
    : option (outcome unit * state) :=
  match fuel with
  | 0 => None
  | S fuel' =>
      match get_length items s with
      | (Ret len, s1) =>
          if below i len then
            match single_iteration items dynamicArgs result method i s1 with
            | (Ret _, s2) => single_loop fuel' items dynamicArgs result method (S i) s2
            | (Throw e, s2) => Some (Throw e, s2)
            end
          else Some (Ret tt, s1)
      | (Throw e, s1) => Some (Throw e, s1)
      end
  end.

(** The statements of the [else] branch before the loop. *)
Definition single_setup (vectorizedParameterIndex : nat) (target : Obj)
    (singularMethod : member) (params : list value)
    : M (value * loc * loc * (list value → M value)) :=
  let items := param params vectorizedParameterIndex in
  len <- get_length items ;;
  created <- new_Array len ;;
  let staticArgs := take vectorizedParameterIndex params in
  dynamicArgs <- alloc (drop vectorizedParameterIndex params) ;;
  method <- bind_method singularMethod target staticArgs ;;
  ret (items, dynamicArgs, created.1, method).

Definition call_single (fuel : nat) (this : SingleVectorFunction) (r : registry)
    (target : Obj) (params : list value) (s : state) : option (outcome value * state) :=
  match specializedFunction_of r (svf_method this) target s with
  | (Ret specializedFunction, s0) =>
      if truthy_member specializedFunction
      then Some (call_member specializedFunction target params s0)
      else
        match single_setup (svf_vectorizedParameterIndex this) target
                (getMember (objects s0) target (svf_method this)) params s0 with
        | (Ret (items, dynamicArgs, result, method), s1) =>
            match single_loop fuel items dynamicArgs result method 0 s1 with
            | Some (Ret _, s2) => Some (Ret (VRef result), s2)
            | Some (Throw e, s2) => Some (Throw e, s2)
            | None => None
            end
        | (Throw e, s1) => Some (Throw e, s1)
        end
  | (Throw e, s0) => Some (Throw e, s0)
  end.

(** ** Vocabulary of the specification *)

(** Element [i] of the array an argument refers to. *)
Definition element (σ : store) (v : value) (i : nat) : value :=
  match v with
  | VRef l => default VUndef (deref σ l !! i)
  | _ => VUndef
  end.

(** The argument list of the scalar call for element [i], in the words of
    the specification: the arguments of [call], with element [i] of the
    array in place of the array at every vectorized position. *)
Definition element_args (σ : store) (indices : list nat) (params : list value)
    (i : nat) : list value :=
  imap (λ j p, if decide (j ∈ indices) then element σ p i else p) params.

(** The argument at [index] is an array of length [n]. *)
Definition has_vector (σ : store) (params : list value) (index n : nat) : Prop :=
  ∃ l xs, params !! index = Some (VRef l) ∧ σ !! l = Some xs ∧ length xs = n.

(** Every vectorized argument is an array of length [n]. *)
Definition vectors_of_length (σ : store) (indices : list nat) (params : list value)
    (n : nat) : Prop :=
  ∀ index, index ∈ indices → has_vector σ params index n.

(** A function that leaves every array that exists when it is called as it
    is (it may create arrays and change the objects). *)
Definition keeps_arrays (f : fn) : Prop :=
  ∀ this args σ st r σ' st',
    f this args (σ, st) = (r, (σ', st')) →
    ∀ l a, σ !! l = Some a → σ' !! l = Some a.

(** A function that leaves the array at [l] as it is. *)
Definition keeps_array_at (l : loc) (f : fn) : Prop :=
  ∀ this args σ st r σ' st',
    f this args (σ, st) = (r, (σ', st')) → σ' !! l = σ !! l.

(** A function that never throws. *)
Definition returns (f : fn) : Prop :=
  ∀ this args w, is_Ret (f this args w).1 = true.

(** [e] is thrown by some call of [f]. *)
Definition thrown_by (f : fn) (e : exn) : Prop :=
  ∃ this args w, (f this args w).1 = Throw e.

(** The dynamic window after the inner loop of iteration [i] has run over
    the pairs of an index and its array, when the window was [D] before. *)
Definition window_after (σ : store) (sliceIndex i : nat)
    (vectorizedParameters : list (nat * value)) (D : list value) : list value :=
  foldl (λ D vp, js_set (vp.1 - sliceIndex) (element σ vp.2 i) D) D vectorizedParameters.

(** The arrays of [σ0] are in the state as they were. *)
Definition kept (σ0 : store) (s : state) : Prop :=
  ∀ l a, σ0 !! l = Some a → arrays s !! l = Some a.

(** The invariant of the elementwise loop that was entered with the arrays
    [σ0] and the recorded calls [inv0]; the result array is at [length σ0]
    and the dynamic window after it.  Before iteration [i]: the result array
    holds the first [i] results, the window holds the arguments after
    [sliceIndex] outside the vectorized positions, and the scalar method has
    been called for the elements [0 .. i-1], in that order. *)
Definition loop_invariant (indices : list nat) (sliceIndex : nat) (target : Obj)
    (f : fn) (params : list value) (n : nat) (σ0 : store) (inv0 : list event)
    (i : nat) (s : state) : Prop :=
  ∃ rs D,
    length rs = i ∧
    arrays s !! length σ0 = Some (rs ++ replicate (n - i) VUndef) ∧
    arrays s !! S (length σ0) = Some D ∧
    length D = length params - sliceIndex ∧
    (∀ q, sliceIndex + q ∉ indices → D !! q = params !! (sliceIndex + q)) ∧
    kept σ0 s ∧
    invocations s
      = inv0 ++ zip (map (element_args σ0 indices params) (seq 0 i)) (map Ret rs) ∧
    Forall2 (λ j r, ∃ w, (f target (element_args σ0 indices params j) w).1 = Ret r)
      (seq 0 i) rs.

(** After a throw out of that loop: it came from the scalar method, and the
    calls so far were calls for elements. *)
Definition loop_thrown (indices : list nat) (target : Obj)
    (f : fn) (params : list value) (n : nat) (σ0 : store) (inv0 : list event)
    (e : exn) (s : state) : Prop :=
  thrown_by f e ∧ kept σ0 s ∧
  ∃ evs, invocations s = inv0 ++ evs ∧
         Forall (λ ev : event, ∃ j, j < n ∧ ev.1 = element_args σ0 indices params j) evs.

(** A scalar method that works on the objects alone: it neither reads nor
    writes an array. *)
Definition scalar (g : Obj → list value → St → outcome value * St) : fn :=
  λ this args w,
    match g this args w.2 with
    | (r, st') => (r, (w.1, st'))
    end.

(** [argss.map(args => g(...args))] with the state of the objects passed from
    one call to the next; the first throw ends it. *)
Fixpoint map_scalar (g : Obj → list value → St → outcome value * St) (target : Obj)
    (argss : list (list value)) (st : St) : outcome (list value) * St :=
  match argss with
  | [] => (Ret [], st)
  | args :: argss' =>
      match g target args st with
      | (Ret v, st1) =>
          match map_scalar g target argss' st1 with
          | (Ret vs, st2) => (Ret (v :: vs), st2)
          | (Throw e, st2) => (Throw e, st2)
          end
      | (Throw e, st1) => (Throw e, st1)
      end
  end.

(** A function that returns and, whatever else it does to the objects,
    leaves the arrays as they were except for the array at [l], which it
    empties. *)
Definition empties (l : loc) (f : fn) : Prop :=
  ∀ this args σ st, ∃ v st', f this args (σ, st) = (Ret v, (<[l := []]> σ, st')).

(** The array of dynamic arguments at [d] has the length it was created
    with and holds, at every position that is not vectorized, the argument
    [call] was given there. *)
Definition window_invariant (indices : list nat) (sliceIndex : nat)
    (params : list value) (d : loc) (s : state) : Prop :=
  ∃ D, arrays s !! d = Some D ∧
       length D = length params - sliceIndex ∧
       ∀ q, sliceIndex + q ∉ indices → D !! q = params !! (sliceIndex + q).

(** The call [ev] of the scalar method received, at every position that is
    not vectorized, the argument [call] was given there. *)
Definition passes_static (indices : list nat) (params : list value) (ev : event) : Prop :=
  ∀ j, j ∉ indices → ev.1 !! j = params !! j.

(** Hoare triples for the engine's monad, with one postcondition for a
    normal return and one for a throw. *)
Definition hoare {A} (P : state → Prop) (c : M A)
    (Q : A → state → Prop) (E : exn → state → Prop) : Prop :=
  ∀ s, P s →
    match c s with
    | (Ret a, s') => Q a s'
    | (Throw e, s') => E e s'
    end.

End Engine.

Notation "x <- c ;; k" := (bind c (λ x, k))
  (at level 100, c at next level, right associativity).
Notation "c ;;; k" := (bind c (λ _, k))
  (at level 100, right associativity).

Arguments fn : clear implicits.
Arguments M : clear implicits.
Arguments member : clear implicits.
Arguments special : clear implicits.
Arguments state : clear implicits.
Arguments registry : clear implicits.

(** * An example program

    Operations in the style of the test suite: classes with a scalar method
    [calc] (or [scaleThenAdd]), some of them decorated. *)

Module Examples.

Inductive class : Type :=
| Squarer | Scaler | Subtractor | Multiplier
| Doubler | FastDoubler | Inverter | Negator.

Inductive object : Type :=
| Instance (c : class)
| Prototype (c : class).

#[global] Instance class_eq_dec : EqDecision class.
Proof. solve_decision. Defined.

#[global] Instance object_eq_dec : EqDecision object.
Proof. solve_decision. Defined.

(** [FastDoubler extends Doubler]; the other classes extend nothing. *)
Definition protoChain (o : object) : list object :=
  match o with
  | Instance FastDoubler => [Instance FastDoubler; Prototype FastDoubler; Prototype Doubler]
  | Prototype FastDoubler => [Prototype FastDoubler; Prototype Doubler]
  | Instance c => [Instance c; Prototype c]
  | Prototype c => [Prototype c]
  end.

(** Arithmetic on values: a result that JavaScript would compute as [NaN]
    is [undefined] here. *)
Definition number_map (g : Z → Z) (a : value) : value :=
  match a with
  | VNum x => VNum (g x)
  | _ => VUndef
  end.

Definition number_op (g : Z → Z → Z) (a b : value) : value :=
  match a, b with
  | VNum x, VNum y => VNum (g x y)
  | _, _ => VUndef
  end.

(** Scalar methods of one and of two arguments. *)
Definition unary (g : Z → Z) : fn object unit :=
  λ _ args w, (Ret (number_map g (param args 0)), w).

Definition binary (g : Z → Z → Z) : fn object unit :=
  λ _ args w, (Ret (number_op g (param args 0) (param args 1)), w).

(** Bulk methods: they fill a new array, as long as the first argument. *)
Definition unary_vectorized (g : Z → Z) : fn object unit :=
  λ _ args w,
    match param args 0 with
    | VRef x =>
        (Ret (VRef (length w.1)),
         (w.1 ++ [map (number_map g) (deref w.1 x)], w.2))
    | _ => (Throw TypeError, w)
    end.

Definition binary_vectorized (g : Z → Z → Z) : fn object unit :=
  λ _ args w,
    match param args 0, param args 1 with
    | VRef a, VRef b =>
        (Ret (VRef (length w.1)),
         (w.1 ++ [imap (λ i v, number_op g v (default VUndef (deref w.1 b !! i)))
                    (deref w.1 a)], w.2))
    | _, _ => (Throw TypeError, w)
    end.

Definition square : fn object unit := unary (λ x, x * x)%Z.
Definition scaleThenAdd : fn object unit := binary (λ k x, k * x + 1)%Z.
Definition sub : fn object unit := binary (λ a b, a - b)%Z.
Definition mul : fn object unit := binary (λ a b, a * b)%Z.
Definition mul_vectorized : fn object unit := binary_vectorized (λ a b, a * b)%Z.
Definition double : fn object unit := unary (λ x, 2 * x)%Z.
Definition double_vectorized : fn object unit := unary_vectorized (λ x, 2 * x)%Z.
Definition double_fast : fn object unit := unary_vectorized (λ x, x + x)%Z.
Definition invert : fn object unit := unary (λ x, - x - 1)%Z.
Definition invert_vectorized : fn object unit := unary_vectorized (λ x, - x - 1)%Z.
Definition negate : fn object unit := unary (λ x, - x)%Z.

Definition own_members (c : class) : list (string * member object unit) :=
  match c with
  | Squarer => [("calc", MFun square)]
  | Scaler => [("scaleThenAdd", MFun scaleThenAdd)]
  | Subtractor => [("calc", MFun sub)]
  | Multiplier => [("calc", MFun mul)]
  | Doubler => [("calc", MFun double); ("calc_vectorized", MFun double_vectorized)]
  | FastDoubler => [("calc_vectorized", MFun double_fast)]
  | Inverter => [("calc", MFun invert)]
  | Negator => [("calc", MFun negate)]
  end.

Definition members (c : class) : list (string * member object unit) :=
  match c with
  | FastDoubler => own_members FastDoubler ++ own_members Doubler
  | c => own_members c
  end.

Fixpoint find_member (name : string) (ms : list (string * member object unit))
    : member object unit :=
  match ms with
  | [] => MVal VUndef
  | (name', m) :: ms' => if decide (name' = name) then m else find_member name ms'
  end.

Definition getMember (_ : unit) (o : object) (k : key) : member object unit :=
  match o, k with
  | Instance c, KStr name => find_member name (members c)
  | Prototype c, KStr name => find_member name (members c)
  | _, KSym _ _ => MVal VUndef
  end.

(** The decorators of the classes, applied to their prototypes:
    [@vectorized()] on [Doubler.calc], a function on [Multiplier.calc] and
    [Inverter.calc], and a name with no member behind it on [Negator.calc]. *)
Definition registry : registry object unit :=
  vectorized None (Prototype Doubler) (KStr "calc")
    (vectorized (Some (SFun mul_vectorized)) (Prototype Multiplier) (KStr "calc")
       (vectorized (Some (SFun invert_vectorized)) (Prototype Inverter) (KStr "calc")
          (vectorized (Some (SKey (KStr "calc_fast"))) (Prototype Negator) (KStr "calc")
             no_metadata))).

(** Engines: [calc] over one array, [calc] over two arrays, and
    [scaleThenAdd] with a static first argument. *)
Definition MathOp_calc_vectorized : ArrayVectorFunction :=
  {| method := KStr "calc"; vectorizedParameterFlags := [true];
     vectorizedParameterIndices := [0]; sliceIndex := 0 |}.

Definition MathOp_calc2_vectorized : ArrayVectorFunction :=
  {| method := KStr "calc"; vectorizedParameterFlags := [true; true];
     vectorizedParameterIndices := [0; 1]; sliceIndex := 0 |}.

(** The index-list engine for [calc] over two arrays. *)
Definition MathOp_calc2_indexed : IndexVectorFunction :=
  {| ivf_method := KStr "calc"; ivf_vectorizedParameterIndices := [0; 1];
     ivf_sliceIndex := 0 |}.

Definition scaleThenAdd_vectorized : ArrayVectorFunction :=
  {| method := KStr "scaleThenAdd"; vectorizedParameterFlags := [false; true];
     vectorizedParameterIndices := [1]; sliceIndex := 1 |}.

Definition numbers (l : list Z) : list value := map VNum l.

(** A state with the given arrays and no call made yet. *)
Definition initially (σ : store) : state unit := State σ tt [].

End Examples.

(** * A second example program

    One object whose state is a running total, with scalar methods that
    throw, that keep state, and that write to an array of the caller. *)

Module Probe.

(** Returns its argument and throws it when it is a negative number. *)
Definition reject_negative : fn unit Z :=
  λ _ args w,
    match param args 0 with
    | VNum x => if decide (x < 0)%Z then (Throw (Raised (VNum x)), w)
                else (Ret (VNum x), w)
    | v => (Ret v, w)
    end.

(** Adds its argument to the running total and returns the new total. *)
Definition add_to_total (_ : unit) (args : list value) (total : Z)
    : outcome value * Z :=
  match param args 0 with
  | VNum x => (Ret (VNum (total + x)), (total + x)%Z)
  | _ => (Ret VUndef, total)
  end.

(** Returns its argument and empties the array at location [0]. *)
Definition empty_first_array : fn unit Z :=
  λ _ args w, (Ret (param args 0), (<[0 := []]> w.1, w.2)).

Definition protoChain (o : unit) : list unit := [o].

Definition getMember (_ : Z) (_ : unit) (k : key) : member unit Z :=
  if decide (k = KStr "check") then MFun reject_negative
  else if decide (k = KStr "total") then MFun (scalar add_to_total)
  else if decide (k = KStr "drain") then MFun empty_first_array
  else if decide (k = KStr "version") then MVal (VNum 1)
  else MVal VUndef.

(** [@vectorized("version")] on [report]: the name of a member that is a
    number. *)
Definition registry : registry unit Z :=
  vectorized (Some (SKey (KStr "version"))) tt (KStr "report") no_metadata.

(** The engine over one array for the method [m]. *)
Definition over_array (m : string) : ArrayVectorFunction :=
  {| method := KStr m; vectorizedParameterFlags := [true];
     vectorizedParameterIndices := [0]; sliceIndex := 0 |}.

Definition initially (σ : store) (total : Z) : state Z := State σ total [].

End Probe.

(** * Facts *)

(** ** Arrays and windows *)

Lemma js_set_in_range j v (a : list value) :
  j < length a → js_set j v a = <[j := v]> a.
Proof. intros Hj. unfold js_set. by rewrite decide_True. Qed.

Lemma js_set_grows j v (a : list value) :
  length a ≤ j → js_set j v a = a ++ replicate (j - length a) VUndef ++ [v].
Proof. intros Hj. unfold js_set. rewrite decide_False; [done | lia]. Qed.

Lemma js_set_lookup_same j v (a : list value) : js_set j v a !! j = Some v.
Proof.
  destruct (decide (j < length a)) as [Hj | Hj].
  - rewrite js_set_in_range by done. by apply list_lookup_insert_eq.
  - rewrite js_set_grows by lia.
    rewrite lookup_app_r by lia.
    rewrite lookup_app_r; rewrite length_replicate; [|lia].
    by replace (j - length a - (j - length a)) with 0 by lia.
Qed.

Lemma zip_with_param (params : list value) (indices : list nat) :
  zip indices (map (param params) indices) = map (λ index, (index, param params index)) indices.
Proof. induction indices as [| index indices IH]; simpl; [done | by rewrite IH]. Qed.

Lemma window_after_cons σ sliceIndex i vp vps D :
  window_after σ sliceIndex i (vp :: vps) D
    = window_after σ sliceIndex i vps (js_set (vp.1 - sliceIndex) (element σ vp.2 i) D).
Proof. done. Qed.

Section Window.
Context (σ : store) (sliceIndex i : nat) (params : list value).

Let pairs (indices : list nat) := map (λ index, (index, param params index)) indices.

Local Ltac step_window index indices :=
  change (pairs (index :: indices)) with ((index, param params index) :: pairs indices);
  rewrite window_after_cons; cbn [fst snd].

Lemma window_after_length indices D :
  (∀ index, index ∈ indices → index - sliceIndex < length D) →
  length (window_after σ sliceIndex i (pairs indices) D) = length D.
Proof.
  revert D. induction indices as [| index indices IH]; intros D Hin; [done |].
  step_window index indices.
  assert (index - sliceIndex < length D) as Hlt by (apply Hin; left).
  rewrite js_set_in_range by done.
  rewrite IH; [by rewrite length_insert |].
  intros index' Hel. rewrite length_insert. apply Hin. by right.
Qed.

Lemma window_after_lookup indices D q :
  (∀ index, index ∈ indices → sliceIndex ≤ index ∧ index - sliceIndex < length D) →
  window_after σ sliceIndex i (pairs indices) D !! q =
    if decide (sliceIndex + q ∈ indices)
    then Some (element σ (param params (sliceIndex + q)) i)
    else D !! q.
Proof.
  revert D. induction indices as [| index indices IH]; intros D Hin.
  { rewrite decide_False; [done | by intros ?%elem_of_nil]. }
  step_window index indices.
  destruct (Hin index) as [Hle Hlt]; [left |].
  rewrite js_set_in_range by done.
  rewrite IH.
  2:{ intros index' Hel. rewrite length_insert. apply Hin. by right. }
  destruct (decide (sliceIndex + q ∈ indices)) as [Hel | Hnel].
  { rewrite decide_True; [done | by right]. }
  destruct (decide (index = sliceIndex + q)) as [-> | Hne].
  - rewrite decide_True by left.
    replace (sliceIndex + q - sliceIndex) with q by lia.
    rewrite list_lookup_insert_eq; [done |].
    revert Hlt. replace (sliceIndex + q - sliceIndex) with q by lia. done.
  - rewrite decide_False.
    2:{ intros [? | ?]%elem_of_cons; [by subst | done]. }
    apply list_lookup_insert_ne. lia.
Qed.

(** The static prefix followed by the window the inner loop leaves is the
    argument list of the specification, whatever the inner loop of an
    earlier iteration had left in the window. *)
Lemma static_and_window indices D :
  (∀ index, index ∈ indices → sliceIndex ≤ index < length params) →
  length D = length params - sliceIndex →
  (∀ q, sliceIndex + q ∉ indices → D !! q = params !! (sliceIndex + q)) →
  sliceIndex ≤ length params →
  take sliceIndex params ++ window_after σ sliceIndex i (pairs indices) D
    = element_args σ indices params i.
Proof.
  intros Hin HlenD Hout Hsl.
  assert (∀ index, index ∈ indices →
            sliceIndex ≤ index ∧ index - sliceIndex < length D) as Hin'.
  { intros index Hel. destruct (Hin index Hel). lia. }
  apply list_eq. intros j. unfold element_args. rewrite list_lookup_imap.
  destruct (decide (j < sliceIndex)) as [Hj | Hj].
  - rewrite lookup_app_l by (rewrite length_take; lia).
    rewrite lookup_take_lt by done.
    destruct (params !! j) as [p |]; [| done]. cbn [fmap option_fmap option_map].
    rewrite decide_False; [done |].
    intros Hel. destruct (Hin j Hel). lia.
  - rewrite lookup_app_r by (rewrite length_take; lia).
    rewrite length_take, Nat.min_l by done.
    rewrite window_after_lookup by done.
    replace (sliceIndex + (j - sliceIndex)) with j by lia.
    destruct (decide (j ∈ indices)) as [Hel | Hnel].
    + destruct (Hin j Hel) as [_ Hlt].
      apply lookup_lt_is_Some in Hlt as [p Hp].
      unfold param. by rewrite Hp.
    + rewrite Hout by (by replace (sliceIndex + (j - sliceIndex)) with j by lia).
      replace (sliceIndex + (j - sliceIndex)) with j by lia.
      by destruct (params !! j).
Qed.

(** What the inner loop leaves is again a window it can start from. *)
Lemma window_after_outside indices D q :
  (∀ index, index ∈ indices → sliceIndex ≤ index ∧ index - sliceIndex < length D) →
  sliceIndex + q ∉ indices →
  window_after σ sliceIndex i (pairs indices) D !! q = D !! q.
Proof. intros Hin Hq. rewrite window_after_lookup by done. by rewrite decide_False. Qed.

End Window.

(** ** The monad and its Hoare rules *)

Section EngineFacts.

Context {Obj St : Type} `{EqDecision Obj}.
Context (protoChain : Obj → list Obj) (getMember : St → Obj → key → member Obj St).

Abbreviation M := (M St).
Abbreviation state := (state St).
Abbreviation fn := (fn Obj St).

Lemma bind_Ret {A B} (c : M A) (k : A → M B) s a s' :
  c s = (Ret a, s') → bind c k s = k a s'.
Proof. intros Hc. unfold bind. by rewrite Hc. Qed.

Lemma bind_Throw {A B} (c : M A) (k : A → M B) s e s' :
  c s = (Throw e, s') → bind c k s = (Throw e, s').
Proof. intros Hc. unfold bind. by rewrite Hc. Qed.

Lemma hoare_bind {A B} (P : state → Prop) (c : M A) (k : A → M B) R Q E :
  hoare P c R E → (∀ a, hoare (R a) (k a) Q E) → hoare P (bind c k) Q E.
Proof.
  intros Hc Hk s HP. specialize (Hc s HP). unfold bind.
  destruct (c s) as [[a | e] s']; [by apply Hk | done].
Qed.

Lemma hoare_ret {A} (P : state → Prop) (a : A) (Q : A → state → Prop) E :
  (∀ s, P s → Q a s) → hoare P (ret a) Q E.
Proof. intros HPQ s HP. by apply HPQ. Qed.

Lemma hoare_consequence {A} (P P' : state → Prop) (c : M A)
    (Q Q' : A → state → Prop) (E E' : exn → state → Prop) :
  hoare P' c Q' E' →
  (∀ s, P s → P' s) → (∀ a s, Q' a s → Q a s) → (∀ e s, E' e s → E e s) →
  hoare P c Q E.
Proof.
  intros Hc HP HQ HE s Hs. specialize (Hc s (HP s Hs)).
  destruct (c s) as [[a | e] s']; auto.
Qed.

(** The rule for a counted loop: an invariant indexed by the counter. *)
Lemma hoare_for_each_seq (I : nat → state → Prop) (body : nat → M unit) E k :
  ∀ i0,
    (∀ i, i0 ≤ i < i0 + k → hoare (I i) (body i) (λ _, I (S i)) E) →
    hoare (I i0) (for_each (seq i0 k) body) (λ _, I (i0 + k)) E.
Proof.
  induction k as [| k IH]; intros i0 Hbody.
  - intros s HI. simpl. by rewrite Nat.add_0_r.
  - cbn [seq for_each]. eapply hoare_bind.
    + apply Hbody. lia.
    + intros ?. replace (i0 + S k) with (S i0 + k) by lia.
      apply IH. intros i Hi. apply Hbody. lia.
Qed.

(** ** Reading the vectorized arguments *)

Lemma get_index_element (v : value) i (s : state) :
  v ≠ VUndef → get_index v i s = (Ret (element (arrays s) v i), s).
Proof. by destruct v. Qed.

Lemma element_alter_ne (F : list value → list value) d σ v i :
  v ≠ VRef d → element (alter F d σ) v i = element σ v i.
Proof.
  destruct v as [| z | l]; [done | done |]. intros Hne. unfold element, deref.
  rewrite list_lookup_alter_ne; [done | congruence].
Qed.

Lemma window_after_ext σ σ' sliceIndex i vps D :
  (∀ vp, vp ∈ vps → element σ' vp.2 i = element σ vp.2 i) →
  window_after σ' sliceIndex i vps D = window_after σ sliceIndex i vps D.
Proof.
  revert D. induction vps as [| vp vps IH]; intros D Hel; [done |].
  rewrite !window_after_cons. rewrite (Hel vp) by left.
  apply IH. intros vp' Hvp'. apply Hel. by right.
Qed.

(** The inner loop rewrites the dynamic window at [d] and nothing else. *)
Lemma substitute_run (vps : list (nat * value)) sliceIndex d i (s : state) :
  (∀ vp, vp ∈ vps → vp.2 ≠ VUndef ∧ vp.2 ≠ VRef d) →
  for_each vps (λ vectorizedParameter,
      v <- get_index vectorizedParameter.2 i ;;
      assign d (vectorizedParameter.1 - sliceIndex) v) s
  = (Ret tt, State (alter (window_after (arrays s) sliceIndex i vps) d (arrays s))
               (objects s) (invocations s)).
Proof.
  revert s. induction vps as [| vp vps IH]; intros s Hvps.
  - cbn [for_each]. unfold ret. destruct s as [σ st inv]. cbn [arrays objects invocations].
    f_equal. f_equal. symmetry. apply list_alter_id. done.
  - cbn [for_each]. destruct (Hvps vp) as [Hundef Hd]; [left |].
    erewrite bind_Ret.
    2:{ erewrite bind_Ret by (by apply get_index_element). reflexivity. }
    rewrite IH.
    2:{ intros vp' Hvp'. apply Hvps. by right. }
    cbn [arrays objects invocations]. f_equal. f_equal.
    rewrite list_alter_alter_eq. apply list_alter_ext; [| done].
    intros D _. cbn [compose]. rewrite window_after_cons.
    apply window_after_ext. intros vp' Hvp'. apply element_alter_ne.
    apply Hvps. by right.
Qed.

(** ** The elementwise loop *)

Lemma zip_args_results (args : nat → list value) (rs : list value) i n :
  length rs = i → i ≤ n →
  Forall (λ ev : event, ∃ j, j < n ∧ ev.1 = args j)
    (zip (map args (seq 0 i)) (map Ret rs)).
Proof.
  intros Hlen Hle. apply Forall_lookup. intros k ev Hk.
  apply lookup_zip_with_Some in Hk as (a & r & -> & Ha & _).
  rewrite list_lookup_fmap in Ha.
  destruct (seq 0 i !! k) as [j |] eqn:Hj; [| done].
  apply lookup_seq in Hj as [-> Hlt]. injection Ha as <-.
  exists k. split; [lia | done].
Qed.

Lemma get_length_vector (σ : store) params index n (s : state) :
  arrays s = σ → has_vector σ params index n →
  get_length (param params index) s = (Ret (VNum (Z.of_nat n)), s).
Proof.
  intros <- (l & xs & Hp & Hl & <-). unfold param. rewrite Hp.
  unfold get_length, deref. cbn [default from_option id]. by rewrite Hl.
Qed.

(** The body of the single-index loop is the body of the general loop for
    the one index. *)
Lemma single_iteration_eq index (items : value) d res (meth : list value → M value)
    i (s : state) :
  single_iteration items d res meth i s
  = iteration [index] [items] index d res meth i s.
Proof.
  unfold single_iteration, iteration, substitute. cbn [zip zip_with for_each fst snd].
  rewrite Nat.sub_diag. unfold bind, ret.
  destruct (get_index items i s) as [[v | e] s1]; [| done].
  by destruct (assign d 0 v s1) as [[[] | e] s2].
Qed.

Section Fallback.
Context (indices : list nat) (sliceIndex : nat) (target : Obj) (f : fn)
        (params : list value) (n : nat) (σ0 : store) (inv0 : list event).
Hypothesis Hvectors : vectors_of_length σ0 indices params n.
Hypothesis Hslice : ∀ index, index ∈ indices → sliceIndex ≤ index.
Hypothesis Hsome : indices ≠ [].
Hypothesis Hkeeps : keeps_arrays f.

Let L := length σ0.
Let args (i : nat) := element_args σ0 indices params i.
Let items := map (param params) indices.
Let method := λ a : list value, invoke_scalar f target (take sliceIndex params ++ a).
Let pairs := map (λ index, (index, param params index)) indices.

Let Inv := loop_invariant indices sliceIndex target f params n σ0 inv0.
Let Exc := loop_thrown indices target f params n σ0 inv0.

Local Lemma vector_at index :
  index ∈ indices →
  ∃ l xs, param params index = VRef l ∧ σ0 !! l = Some xs ∧ length xs = n ∧
          sliceIndex ≤ index < length params ∧ l < L.
Proof.
  intros Hel. destruct (Hvectors index Hel) as (l & xs & Hp & Hl & Hn).
  exists l, xs. unfold param. rewrite Hp. repeat split; try done.
  - by apply Hslice.
  - by apply lookup_lt_Some in Hp.
  - by apply lookup_lt_Some in Hl.
Qed.

Local Lemma slice_in_params : sliceIndex < length params.
Proof.
  assert (∃ index, index ∈ indices) as [index Hel].
  { clear -Hsome. destruct indices as [| index rest]; [done |]. exists index. left. }
  destruct (vector_at index Hel) as (? & ? & _ & _ & _ & ? & _). lia.
Qed.

Local Lemma pairs_are_arrays vp :
  vp ∈ pairs → vp.2 ≠ VUndef ∧ vp.2 ≠ VRef (S L).
Proof.
  intros (index & -> & Hel)%list_elem_of_fmap.
  destruct (vector_at index Hel) as (l & xs & -> & _ & _ & _ & Hl).
  cbn [snd]. split; [done |]. intros [= ->]. lia.
Qed.

Local Lemma pairs_elements_kept (s : state) i vp :
  kept σ0 s → vp ∈ pairs → element (arrays s) vp.2 i = element σ0 vp.2 i.
Proof.
  intros Hkept (index & -> & Hel)%list_elem_of_fmap.
  destruct (vector_at index Hel) as (l & xs & -> & Hl & _).
  cbn [snd]. unfold element, deref. by rewrite (Hkept l xs Hl), Hl.
Qed.

Lemma iteration_spec i :
  i < n →
  hoare (Inv i) (iteration indices items sliceIndex (S L) L method i)
    (λ _, Inv (S i)) Exc.
Proof.
  intros Hi s (rs & D & Hlen & HL & HD & HlenD & Hout & Hkept & Hinv & Hres).
  fold L in HL, HD. fold args in Hinv, Hres.
  assert (∀ index, index ∈ indices →
            sliceIndex ≤ index ∧ index - sliceIndex < length D) as Hin.
  { intros index Hel.
    destruct (vector_at index Hel) as (? & ? & _ & _ & _ & ? & _). lia. }
  unfold iteration, substitute, items. rewrite zip_with_param. fold pairs.
  erewrite bind_Ret by (apply substitute_run, pairs_are_arrays).
  erewrite bind_Ret by reflexivity.
  cbn [arrays]. unfold deref. rewrite list_lookup_alter_eq, HD. cbn [fmap option_fmap option_map default].
  rewrite (window_after_ext σ0) by (intros; by apply pairs_elements_kept).
  unfold bind at 1. unfold method, invoke_scalar, id. cbn [arrays objects invocations].
  unfold pairs. rewrite static_and_window; try done.
  2:{ intros index Hel.
      destruct (vector_at index Hel) as (? & ? & _ & _ & _ & ? & _). lia. }
  2:{ pose proof slice_in_params. lia. }
  fold pairs. fold (args i).
  destruct (f target (args i) _) as [r [σ' st']] eqn:Hf.
  assert (σ' !! L = Some (rs ++ replicate (n - i) VUndef)) as HL'.
  { eapply Hkeeps; [exact Hf |]. by rewrite list_lookup_alter_ne by lia. }
  assert (σ' !! S L = Some (window_after σ0 sliceIndex i pairs D)) as HD'.
  { eapply Hkeeps; [exact Hf |]. rewrite list_lookup_alter_eq, HD.
    cbn [fmap option_fmap option_map]. f_equal.
    apply window_after_ext. intros. by apply pairs_elements_kept. }
  assert (∀ l a, σ0 !! l = Some a → σ' !! l = Some a) as Hkept'.
  { intros l a Hl. eapply Hkeeps; [exact Hf |].
    rewrite list_lookup_alter_ne; [by apply Hkept |].
    apply lookup_lt_Some in Hl. fold L in Hl. lia. }
  destruct r as [v | e].
  - (* the scalar method returned [v] *)
    unfold assign. cbn [arrays objects invocations].
    exists (rs ++ [v]), (window_after σ0 sliceIndex i pairs D).
    unfold kept. cbn [arrays objects invocations].
    split_and!.
    + rewrite length_app. cbn [length]. lia.
    + rewrite list_lookup_alter_eq, HL'. cbn [fmap option_fmap option_map].
      f_equal. rewrite js_set_in_range by (rewrite length_app, length_replicate; lia).
      rewrite insert_app_r_alt by lia.
      replace (i - length rs) with 0 by lia.
      replace (n - i) with (S (n - S i)) by lia.
      cbn [replicate]. rewrite <- app_assoc. done.
    + by rewrite list_lookup_alter_ne by lia.
    + unfold pairs. by rewrite window_after_length by (intros; by apply Hin).
    + intros q Hq. unfold pairs. rewrite window_after_outside by done. by apply Hout.
    + intros l a Hl. rewrite list_lookup_alter_ne; [by apply Hkept' |].
      apply lookup_lt_Some in Hl. fold L in Hl. lia.
    + rewrite Hinv, <- app_assoc. f_equal.
      rewrite seq_S, !fmap_app. cbn [fmap list_fmap Nat.add].
      rewrite zip_with_app by (by rewrite !length_fmap, length_seq).
      done.
    + rewrite seq_S. apply Forall2_app; [done |].
      constructor; [| constructor].
      exists (alter (window_after (arrays s) sliceIndex i pairs) (S L) (arrays s), objects s).
      cbn [Nat.add]. fold (args i). by rewrite Hf.
  - (* the scalar method threw [e] *)
    unfold Exc, loop_thrown, kept. cbn [arrays objects invocations].
    split_and!.
    + exists target, (args i),
        (alter (window_after (arrays s) sliceIndex i pairs) (S L) (arrays s), objects s).
      by rewrite Hf.
    + done.
    + eexists. split; [by rewrite Hinv, <- app_assoc |].
      apply Forall_app. split; [apply zip_args_results; [done | lia] |].
      constructor; [| constructor]. exists i. done.
Qed.

Lemma loop_start (s : state) :
  arrays s = (σ0 ++ [replicate n VUndef]) ++ [drop sliceIndex params] →
  invocations s = inv0 →
  Inv 0 s.
Proof.
  intros Hσ Hinv. exists [], (drop sliceIndex params). rewrite Hσ, Hinv.
  split_and!.
  - done.
  - rewrite lookup_app_l by (rewrite length_app; cbn [length]; unfold L; lia).
    rewrite Nat.sub_0_r. apply list_lookup_middle. done.
  - apply list_lookup_middle. rewrite length_app. cbn [length]. unfold L. lia.
  - apply length_drop.
  - intros q _. apply lookup_drop.
  - intros l a Hl. rewrite Hσ, <- app_assoc. by apply lookup_app_l_Some.
  - by rewrite app_nil_r.
  - constructor.
Qed.

(** The loop as a whole, from a state in which the vectorized arguments
    are arrays of length [n]. *)
Lemma elementwise_spec :
  hoare (λ s, arrays s = σ0 ∧ invocations s = inv0)
    (elementwise indices sliceIndex target (MFun f) params)
    (λ v s, v = VRef L ∧ Inv n s) Exc.
Proof.
  intros s [Hσ Hinv]. unfold elementwise.
  assert (∃ index, indices !! 0 = Some index) as [index Hindex].
  { clear -Hsome. destruct indices as [| index rest]; [done |]. by exists index. }
  destruct (vector_at index) as (l & xs & Hp & Hl & Hn & _).
  { by apply list_elem_of_lookup_2 in Hindex. }
  rewrite list_lookup_fmap, Hindex. cbn [fmap option_fmap option_map default].
  rewrite Hp.
  erewrite bind_Ret by reflexivity.
  replace (deref (arrays s) l) with xs by (unfold deref; by rewrite Hσ, Hl).
  rewrite Hn.
  unfold new_Array, Array_of_length. rewrite decide_True by lia.
  rewrite Nat2Z.id, length_replicate.
  erewrite bind_Ret by reflexivity. cbn [fst snd].
  erewrite bind_Ret by reflexivity.
  erewrite bind_Ret by reflexivity.
  cbn [arrays objects invocations]. rewrite Hσ, !length_app. cbn [length].
  replace (length σ0 + 1) with (S L) by (unfold L; lia).
  fold L. fold items. fold method.
  pose proof (hoare_for_each_seq Inv
                (iteration indices items sliceIndex (S L) L method) Exc n 0) as Hloop.
  unfold bind at 1.
  match goal with |- context [for_each _ _ ?s1] => specialize (Hloop (λ i Hi, iteration_spec i (proj2 Hi)) s1) end.
  destruct (for_each _ _ _) as [[[] | e] s'].
  - unfold ret. split; [done |]. apply Hloop. by apply loop_start.
  - apply Hloop. by apply loop_start.
Qed.

End Fallback.

Lemma vectors_of_length_nil σ params n : vectors_of_length σ [] params n.
Proof. by intros index ?%elem_of_nil. Qed.

Lemma vectors_of_length_cons σ index indices params n :
  has_vector σ params index n → vectors_of_length σ indices params n →
  vectors_of_length σ (index :: indices) params n.
Proof. intros Hv Hvs index' [-> | Hel]%elem_of_cons; [done | by apply Hvs]. Qed.

(** ** The single-index revision *)

(** With one vectorized position, the fuelled loop of the single-index
    revision does what the counted loop does, given more fuel than there
    are elements left. *)
Lemma single_loop_spec index (target : Obj) (f : fn) params n σ0 inv0 k :
  has_vector σ0 params index n →
  keeps_arrays f →
  let method := λ a : list value, invoke_scalar f target (take index params ++ a) in
  ∀ i (s : state) fuel,
    loop_invariant [index] index target f params n σ0 inv0 i s →
    i + k = n → k < fuel →
    single_loop fuel (param params index) (S (length σ0)) (length σ0) method i s
    = Some (for_each (seq i k)
              (iteration [index] [param params index] index
                 (S (length σ0)) (length σ0) method) s).
Proof.
  intros Hv Hkeeps method.
  assert (vectors_of_length σ0 [index] params n) as Hvec.
  { apply vectors_of_length_cons; [done | apply vectors_of_length_nil]. }
  assert (∀ index', index' ∈ [index] → index ≤ index') as Hslice.
  { by intros index' ->%list_elem_of_singleton. }
  induction k as [| k IH]; intros i s fuel HInv Hik Hfuel;
    (destruct fuel as [| fuel]; [lia |]).
  all: assert (has_vector (arrays s) params index n) as Hvs
         by (destruct HInv as (_ & _ & _ & _ & _ & _ & _ & Hkept & _);
             destruct Hv as (l & xs & Hp & Hl & Hn);
             exists l, xs; split_and!; [done | by apply Hkept | done]).
  all: cbn [single_loop];
       rewrite (get_length_vector (arrays s) params index n) by done;
       cbn [below].
  - rewrite bool_decide_eq_false_2 by lia. done.
  - rewrite bool_decide_eq_true_2 by lia.
    rewrite (single_iteration_eq index).
    cbn [seq for_each]. unfold bind at 1.
    pose proof (iteration_spec [index] index target f params n σ0 inv0
                  Hvec Hslice ltac:(done) Hkeeps i ltac:(lia) s HInv) as Hstep.
    cbn [map] in Hstep. fold method in Hstep.
    destruct (iteration [index] _ _ _ _ _ _ s) as [[[] | e] s2]; [| done].
    apply IH; [done | lia | lia].
Qed.

(** Both revisions reach their loops in the same state. *)
Lemma elementwise_start indices sliceIndex (target : Obj) (f : fn) params n
    (s : state) index :
  indices !! 0 = Some index →
  has_vector (arrays s) params index n →
  elementwise indices sliceIndex target (MFun f) params s
  = (for_each (seq 0 n)
       (iteration indices (map (param params) indices) sliceIndex
          (S (length (arrays s))) (length (arrays s))
          (λ a, invoke_scalar f target (take sliceIndex params ++ a))) ;;;
     ret (VRef (length (arrays s))))
      (State ((arrays s ++ [replicate n VUndef]) ++ [drop sliceIndex params])
         (objects s) (invocations s)).
Proof.
  intros Hindex Hv. unfold elementwise.
  rewrite list_lookup_fmap, Hindex. cbn [fmap option_fmap option_map default from_option id].
  erewrite bind_Ret by (by apply (get_length_vector (arrays s))).
  unfold new_Array, Array_of_length. rewrite decide_True by lia.
  rewrite Nat2Z.id, length_replicate.
  erewrite bind_Ret by reflexivity. cbn [fst snd].
  erewrite bind_Ret by reflexivity.
  erewrite bind_Ret by reflexivity.
  cbn [arrays objects invocations]. rewrite !length_app. cbn [length].
  by replace (length (arrays s) + 1) with (S (length (arrays s))) by lia.
Qed.

Lemma single_setup_run index (target : Obj) (f : fn) params n (s : state) :
  has_vector (arrays s) params index n →
  single_setup index target (MFun f) params s
  = (Ret (param params index, S (length (arrays s)), length (arrays s),
          λ a, invoke_scalar f target (take index params ++ a)),
     State ((arrays s ++ [replicate n VUndef]) ++ [drop index params])
       (objects s) (invocations s)).
Proof.
  intros Hv. unfold single_setup.
  erewrite bind_Ret by (by apply (get_length_vector (arrays s))).
  unfold new_Array, Array_of_length. rewrite decide_True by lia.
  rewrite Nat2Z.id.
  erewrite bind_Ret by reflexivity. cbn [fst snd].
  erewrite bind_Ret by reflexivity.
  erewrite bind_Ret by reflexivity.
  unfold ret. cbn [arrays objects invocations]. rewrite !length_app. cbn [length].
  by replace (length (arrays s) + 1) with (S (length (arrays s))) by lia.
Qed.

(** Given more fuel than the array has elements, [call] of the single-index
    revision does what [call] of [src/vectorized.ts] does for the descriptor
    with that one position, for a scalar method that leaves the arrays
    alone. *)
Lemma call_single_agrees fuel this index (r : registry Obj St) target (f : fn)
    params n (s : state) :
  vectorizedParameterIndices this = [index] →
  sliceIndex this = index →
  getMember (objects s) target (method this) = MFun f →
  has_vector (arrays s) params index n →
  keeps_arrays f →
  n < fuel →
  call_single protoChain getMember fuel
    (new_SingleVectorFunction (method this) (Some index)) r target params s
  = Some (call protoChain getMember this r target params s).
Proof.
  intros Hindices Hslice Hf Hv Hkeeps Hfuel.
  unfold call_single, call, VectorFunction_call, new_SingleVectorFunction.
  cbn [svf_method svf_vectorizedParameterIndex default from_option id].
  unfold bind at 1. unfold specializedFunction_of.
  cbn beta iota.
  destruct (truthy_member _); [done |]. rewrite Hf.
  rewrite (single_setup_run index target f params n s) by done.
  unfold vectorizeSingularCall, check_lengths. rewrite Hindices, Hslice.
  cbn [length]. rewrite decide_False by lia.
  erewrite bind_Ret by reflexivity.
  rewrite (elementwise_start [index] index target f params n s index) by done.
  cbn [map].
  rewrite (single_loop_spec index target f params n (arrays s) (invocations s) n)
    by (done || lia || by apply loop_start).
  unfold bind.
  by destruct (for_each _ _ _) as [[[] | e] s2].
Qed.

(** ** The length check *)

Lemma unequal_lengths σ indices params i j ni nj :
  i ∈ indices → j ∈ indices →
  has_vector σ params i ni → has_vector σ params j nj → ni ≠ nj →
  ¬ ∃ n, vectors_of_length σ indices params n.
Proof.
  intros Hi Hj Hvi Hvj Hne [n Hvec]. apply Hne.
  destruct Hvi as (l & xs & Hp & Hl & <-), Hvj as (l' & xs' & Hp' & Hl' & <-).
  destruct (Hvec i Hi) as (l1 & xs1 & Hp1 & Hl1 & Hn1).
  destruct (Hvec j Hj) as (l2 & xs2 & Hp2 & Hl2 & Hn2).
  congruence.
Qed.

Lemma map_M_get_length params indices lens (s : state) :
  Forall2 (has_vector (arrays s) params) indices lens →
  map_M (λ index, get_length (param params index)) indices s
    = (Ret (map (λ n, VNum (Z.of_nat n)) lens), s).
Proof.
  induction 1 as [| index n indices lens Hv _ IH]; [done |].
  cbn [map_M]. erewrite bind_Ret by (by eapply get_length_vector).
  erewrite bind_Ret by exact IH. done.
Qed.

Lemma lengths_of_vectors (σ : store) params indices :
  (∀ index, index ∈ indices → ∃ n, has_vector σ params index n) →
  ∃ lens, Forall2 (has_vector σ params) indices lens.
Proof.
  induction indices as [| index indices IH]; intros Hall.
  - exists []. constructor.
  - destruct (Hall index) as [n Hn]; [left |].
    destruct IH as [lens Hlens]; [intros; apply Hall; by right |].
    exists (n :: lens). by constructor.
Qed.

Lemma has_vector_unique σ params index n n' :
  has_vector σ params index n → has_vector σ params index n' → n = n'.
Proof.
  intros (l & xs & Hp & Hl & <-) (l' & xs' & Hp' & Hl' & <-). congruence.
Qed.

(** Equal lengths pass the check, and the check changes nothing. *)
Lemma check_lengths_equal indices params n (s : state) :
  vectors_of_length (arrays s) indices params n →
  check_lengths indices params s = (Ret tt, s).
Proof.
  intros Hvec. unfold check_lengths. destruct (decide (1 < length indices)); [| done].
  assert (Forall2 (has_vector (arrays s) params) indices (replicate (length indices) n)) as Hlens.
  { clear -Hvec. induction indices as [| index indices IH]; [constructor |].
    cbn [length replicate]. constructor; [apply Hvec; left |].
    apply IH. intros index' ?. apply Hvec. by right. }
  erewrite bind_Ret by (by apply map_M_get_length).
  destruct indices as [| index indices]; [cbn [length] in *; lia |].
  cbn [length replicate map lookup list_lookup default from_option id].
  replace (existsb _ _) with false; [done |]. symmetry.
  apply not_true_is_false. intros (v & Hv & Hne)%existsb_exists.
  apply negb_true_iff in Hne. unfold loose_eq in Hne. apply bool_decide_eq_false in Hne.
  apply Hne. destruct Hv as [<- | Hv]; [done |].
  apply in_map_iff in Hv as (n' & <- & Hn').
  apply list_elem_of_In, elem_of_replicate in Hn' as [-> _]. done.
Qed.

(** Unequal lengths fail the check, and the check changes nothing. *)
Lemma check_lengths_unequal indices params (s : state) :
  1 < length indices →
  (∀ index, index ∈ indices → ∃ n, has_vector (arrays s) params index n) →
  (¬ ∃ n, vectors_of_length (arrays s) indices params n) →
  check_lengths indices params s = (Throw LengthMismatchError, s).
Proof.
  intros Hmany Hall Hneq. unfold check_lengths. rewrite decide_True by done.
  destruct (lengths_of_vectors _ _ _ Hall) as [lens Hlens].
  erewrite bind_Ret by (by apply map_M_get_length).
  destruct (existsb _ _) eqn:Hex; [done |]. exfalso.
  destruct Hlens as [| index n indices lens Hn Hlens]; [cbn [length] in Hmany; lia |].
  apply Hneq. exists n. intros index' Hel.
  apply elem_of_cons in Hel as [-> | Hel]; [done |].
  apply list_elem_of_lookup in Hel as [k Hk].
  destruct (Forall2_lookup_l _ _ _ _ _ Hlens Hk) as (n' & Hn' & Hv').
  replace n with n'; [done |].
  apply not_true_iff_false in Hex.
  destruct (decide (n' = n)) as [| Hne]; [done |]. exfalso. apply Hex.
  apply existsb_exists. exists (VNum (Z.of_nat n')). split.
  - right. apply in_map_iff. exists n'. split; [done |].
    apply list_elem_of_In. by eapply list_elem_of_lookup_2.
  - cbn [map lookup list_lookup default from_option id]. apply negb_true_iff.
    unfold loose_eq. apply bool_decide_eq_false. intros [= Heq]. lia.
Qed.

(** ** The descriptor *)

(** The indices the constructor computes are the positions of the flags
    that are set. *)
Lemma elem_of_indices_of_flags flags index :
  index ∈ indices_of_flags flags ↔ flags !! index = Some true.
Proof.
  unfold indices_of_flags. rewrite list_elem_of_fmap. split.
  - intros ([flag index'] & -> & Hel). cbn [snd].
    apply list_elem_of_In, filter_In in Hel as [Hel Hflag].
    apply list_elem_of_In, elem_of_lookup_imap in Hel as (j & b & [= -> ->] & Hj).
    cbn [fst] in Hflag. by subst.
  - intros Hflag. exists (true, index). split; [done |].
    apply list_elem_of_In, filter_In. split; [| done].
    apply list_elem_of_In, elem_of_lookup_imap. by exists index, true.
Qed.

Lemma Math_min_lower index rest :
  ∀ x, x ∈ index :: rest → Math_min index rest ≤ x.
Proof.
  unfold Math_min. revert index. induction rest as [| y rest IH]; intros index x Hx.
  - apply list_elem_of_singleton in Hx as ->. done.
  - cbn [foldl]. apply elem_of_cons in Hx as [-> | Hx].
    + etrans; [apply IH; left | lia].
    + apply elem_of_cons in Hx as [-> | Hx].
      * etrans; [apply IH; left | lia].
      * apply IH. by right.
Qed.

Lemma Math_min_elem index rest : Math_min index rest ∈ index :: rest.
Proof.
  unfold Math_min. revert index. induction rest as [| y rest IH]; intros index; [left |].
  cbn [foldl]. specialize (IH (index `min` y)).
  apply elem_of_cons in IH as [-> | IH].
  - destruct (Nat.min_spec index y) as [[_ ->] | [_ ->]]; [left | right; left].
  - right. by right.
Qed.

(** What a successful construction gives. *)
Lemma new_ArrayVectorFunction_Ret m flags this :
  new_ArrayVectorFunction m flags = Ret this →
  method this = m ∧
  vectorizedParameterFlags this = flags ∧
  vectorizedParameterIndices this = indices_of_flags flags ∧
  vectorizedParameterIndices this ≠ [] ∧
  sliceIndex this ∈ vectorizedParameterIndices this ∧
  (∀ index, index ∈ vectorizedParameterIndices this → sliceIndex this ≤ index).
Proof.
  unfold new_ArrayVectorFunction.
  destruct (indices_of_flags flags) as [| index rest] eqn:Hi; [done |].
  intros [= <-]. cbn [method vectorizedParameterFlags vectorizedParameterIndices sliceIndex].
  split_and!; try done.
  - apply Math_min_elem.
  - apply Math_min_lower.
Qed.

(** ** Dispatch *)

(** Without metadata, [call] is the fallback. *)
Lemma VectorFunction_call_without_metadata vsc (r : registry Obj St) m target params
    (s : state) :
  getMetadata protoChain r target m = None →
  VectorFunction_call protoChain getMember vsc r m target params s
    = vsc target (getMember (objects s) target m) params s.
Proof.
  intros Hnone. unfold VectorFunction_call.
  erewrite bind_Ret by (unfold specializedFunction_of; rewrite Hnone; reflexivity).
  done.
Qed.

Lemma call_without_metadata this (r : registry Obj St) target params (s : state) :
  getMetadata protoChain r target (method this) = None →
  call protoChain getMember this r target params s
    = vectorizeSingularCall this target
        (getMember (objects s) target (method this)) params s.
Proof. apply VectorFunction_call_without_metadata. Qed.

(** With a function for [specializedFunction], [call] is a call of it. *)
Lemma VectorFunction_call_with_function vsc (r : registry Obj St) m target params
    (s : state) declared g :
  getMetadata protoChain r target m = Some declared →
  truthy_special declared = true →
  match declared with
  | SFun f => f = g
  | SKey name => getMember (objects s) target name = MFun g
  end →
  VectorFunction_call protoChain getMember vsc r m target params s
    = apply_fn g target params s.
Proof.
  intros Hsome Htruthy Hg. unfold VectorFunction_call.
  erewrite bind_Ret.
  2:{ unfold specializedFunction_of. rewrite Hsome, Htruthy. reflexivity. }
  destruct declared as [name | f]; [rewrite Hg | subst f]; done.
Qed.

Lemma call_with_function this (r : registry Obj St) target params (s : state) declared g :
  getMetadata protoChain r target (method this) = Some declared →
  truthy_special declared = true →
  match declared with
  | SFun f => f = g
  | SKey name => getMember (objects s) target name = MFun g
  end →
  call protoChain getMember this r target params s = apply_fn g target params s.
Proof. apply VectorFunction_call_with_function. Qed.


(** ** The fallback computes the elementwise results *)




(** ** The arrays of the caller *)

Section Frame.
Context (l : loc) (a : list value).

(** The array at [l] is [a]. *)
Let P (s : state) : Prop := arrays s !! l = Some a.

Lemma frame_unchanged {A} (c : M A) :
  (∀ s, (c s).2 = s) → hoare P c (λ _, P) (λ _, P).
Proof.
  intros Hc s HP. specialize (Hc s).
  destruct (c s) as [[x | e] s']; cbn [snd] in Hc; by subst s'.
Qed.

Lemma frame_get_length v : hoare P (get_length v) (λ _, P) (λ _, P).
Proof. apply frame_unchanged. intros s. by destruct v. Qed.

Lemma frame_get_index v i : hoare P (get_index v i) (λ _, P) (λ _, P).
Proof. apply frame_unchanged. intros s. by destruct v. Qed.

(** A new array lies beyond [l]. *)
Lemma frame_alloc x : hoare P (alloc x) (λ d s, P s ∧ l < d) (λ _, P).
Proof.
  intros s HP. unfold alloc, P in *. cbn [arrays].
  pose proof (lookup_lt_Some _ _ _ HP). split; [| done].
  by apply lookup_app_l_Some.
Qed.

Lemma frame_assign d j v : l ≠ d → hoare P (assign d j v) (λ _, P) (λ _, P).
Proof.
  intros Hne s HP. unfold assign, P in *. cbn [arrays].
  by rewrite list_lookup_alter_ne.
Qed.

Lemma frame_invoke_scalar (f : fn) this args :
  keeps_array_at l f → hoare P (invoke_scalar f this args) (λ _, P) (λ _, P).
Proof.
  intros Hf s HP. unfold invoke_scalar, P in *.
  destruct (f this args _) as [r [σ' st']] eqn:Hcall.
  apply Hf in Hcall. destruct r; cbn [arrays]; by rewrite Hcall.
Qed.

Lemma frame_for_each {A} (xs : list A) (body : A → M unit) :
  (∀ x, hoare P (body x) (λ _, P) (λ _, P)) →
  hoare P (for_each xs body) (λ _, P) (λ _, P).
Proof.
  intros Hbody. induction xs as [| x xs IH]; [by apply hoare_ret |].
  cbn [for_each]. eapply hoare_bind; [apply Hbody | done].
Qed.

Lemma frame_map_M {A B} (xs : list A) (g : A → M B) :
  (∀ x, hoare P (g x) (λ _, P) (λ _, P)) →
  hoare P (map_M g xs) (λ _, P) (λ _, P).
Proof.
  intros Hg. induction xs as [| x xs IH]; [by apply hoare_ret |].
  cbn [map_M]. eapply hoare_bind; [apply Hg |]. intros y.
  eapply hoare_bind; [apply IH |]. intros ys. by apply hoare_ret.
Qed.

Lemma frame_check_lengths indices params :
  hoare P (check_lengths indices params) (λ _, P) (λ _, P).
Proof.
  unfold check_lengths. destruct (decide _); [| by apply hoare_ret].
  eapply hoare_bind; [apply frame_map_M; intros; apply frame_get_length |].
  intros lengths. destruct (existsb _ _); [| by apply hoare_ret].
  by intros s HP.
Qed.

(** The elementwise loop writes to the two arrays it created only. *)
Lemma frame_elementwise indices sliceIndex (target : Obj)
    (singularMethod : member Obj St) params :
  (∀ f, singularMethod = MFun f → keeps_array_at l f) →
  hoare P (elementwise indices sliceIndex target singularMethod params)
    (λ _, P) (λ _, P).
Proof.
  intros Hf. unfold elementwise.
  eapply hoare_bind; [apply frame_get_length |]. intros len.
  eapply hoare_bind with (R := λ created s, P s ∧ l < created.1).
  { unfold new_Array. destruct (Array_of_length len) as [x | e]; [| by intros s HP].
    eapply hoare_bind; [apply frame_alloc |]. intros d.
    apply hoare_ret. by intros s [HP Hd]. }
  intros [result n]. cbn [fst snd].
  eapply hoare_bind with (R := λ d s, P s ∧ l < result ∧ l < d).
  { intros s [HP Hresult]. pose proof (frame_alloc (drop sliceIndex params) s HP) as H.
    destruct (alloc _ s) as [[d | e] s']; [| done]. destruct H. done. }
  intros dynamicArgs.
  eapply hoare_bind with (R := λ method s,
    (P s ∧ l < result ∧ l < dynamicArgs) ∧
    ∀ args, hoare P (method args) (λ _, P) (λ _, P)).
  { destruct singularMethod as [f | v]; [| by intros s (HP & _)].
    apply hoare_ret. intros s H. split; [done |].
    intros args. apply frame_invoke_scalar. by apply Hf. }
  intros method.
  intros s [(HP & Hresult & Hdynamic) Hmethod]. revert s HP.
  change (hoare P
    (for_each (seq 0 n) (iteration indices (map (param params) indices) sliceIndex
                           dynamicArgs result method) ;;; ret (VRef result))
    (λ _, P) (λ _, P)).
  eapply hoare_bind with (R := λ _, P); [| intros; by apply hoare_ret].
  apply frame_for_each. intros i. unfold iteration, substitute.
  eapply hoare_bind.
  { apply frame_for_each. intros vp.
    eapply hoare_bind; [apply frame_get_index |]. intros v.
    apply frame_assign. lia. }
  intros _u. eapply hoare_bind; [by apply frame_unchanged |]. intros args.
  eapply hoare_bind; [apply Hmethod |]. intros v.
  apply frame_assign. lia.
Qed.

End Frame.

(** C10.  On the fallback path [call] leaves every array that existed
    before the call as it was, whenever the scalar method does: whatever
    the arguments are and however the call ends, the engine itself writes
    only to the window and the result array it created. *)
Theorem call_fallback_frame this (r : registry Obj St) target params (s : state) l :
  getMetadata protoChain r target (method this) = None →
  l < length (arrays s) →
  (∀ f, getMember (objects s) target (method this) = MFun f → keeps_array_at l f) →
  ∀ o s',
    call protoChain getMember this r target params s = (o, s') →
    arrays s' !! l = arrays s !! l.
Proof.
  intros Hnone Hl Hf o s' Hcall.
  rewrite call_without_metadata in Hcall by done.
  apply lookup_lt_is_Some in Hl as [a Ha]. rewrite Ha.
  assert (hoare (λ s, arrays s !! l = Some a)
            (vectorizeSingularCall this target
               (getMember (objects s) target (method this)) params)
            (λ _ s, arrays s !! l = Some a) (λ _ s, arrays s !! l = Some a)) as Hframe.
  { unfold vectorizeSingularCall.
    eapply hoare_bind; [apply frame_check_lengths |]. intros _u.
    by apply frame_elementwise. }
  specialize (Hframe s Ha). rewrite Hcall in Hframe. by destruct o.
Qed.

(** ** Errors of the engine *)

(** C3.  On the fallback path, when two or more positions are vectorized
    and the arrays at those positions do not all have the same length,
    [call] throws the length error and the state is the one it was called
    in: no call of the scalar method is recorded and no array was created. *)
Theorem call_fallback_length_mismatch this m flags (r : registry Obj St) target
    params (s : state) :
  new_ArrayVectorFunction m flags = Ret this →
  getMetadata protoChain r target m = None →
  1 < length (vectorizedParameterIndices this) →
  (∀ index, index ∈ vectorizedParameterIndices this →
     ∃ n, has_vector (arrays s) params index n) →
  (¬ ∃ n, vectors_of_length (arrays s) (vectorizedParameterIndices this) params n) →
  call protoChain getMember this r target params s = (Throw LengthMismatchError, s).
Proof.
  intros Hnew Hnone Hmany Hall Hneq.
  destruct (new_ArrayVectorFunction_Ret _ _ _ Hnew) as (Hm & _).
  rewrite call_without_metadata by (by rewrite Hm).
  unfold vectorizeSingularCall.
  by erewrite bind_Throw by (by apply check_lengths_unequal).
Qed.

(** C4.  The constructor throws the configuration error for every
    descriptor in which no flag is set. *)
Theorem constructor_rejects_no_vectorized m flags :
  (∀ index, flags !! index ≠ Some true) →
  new_ArrayVectorFunction m flags = Throw ConfigurationError.
Proof.
  intros Hnone. unfold new_ArrayVectorFunction.
  destruct (indices_of_flags flags) as [| index rest] eqn:Hi; [done |].
  destruct (Hnone index). apply elem_of_indices_of_flags. rewrite Hi. left.
Qed.

(** With a flag set, the constructor returns. *)
Lemma constructor_accepts_vectorized m flags index :
  flags !! index = Some true → is_Ret (new_ArrayVectorFunction m flags) = true.
Proof.
  intros Hflag%elem_of_indices_of_flags. unfold new_ArrayVectorFunction.
  destruct (indices_of_flags flags); [by apply elem_of_nil in Hflag | done].
Qed.

(** ** Empty arrays *)

Lemma elementwise_empty indices sliceIndex (target : Obj) (f : fn) params (s : state) :
  indices ≠ [] →
  vectors_of_length (arrays s) indices params 0 →
  elementwise indices sliceIndex target (MFun f) params s
    = (Ret (VRef (length (arrays s))),
       State ((arrays s ++ [[]]) ++ [drop sliceIndex params])
         (objects s) (invocations s)).
Proof.
  intros Hsome Hvec. unfold elementwise.
  destruct indices as [| index rest]; [done |].
  erewrite bind_Ret by (apply (get_length_vector (arrays s) _ _ 0); [done | apply Hvec; left]).
  done.
Qed.

(** C9.  On the fallback path, when every vectorized argument is an empty
    array, [call] returns a new empty array, records no call of the scalar
    method, and leaves the objects as they were. *)
Theorem call_fallback_empty this m flags (r : registry Obj St) target (f : fn)
    params (s : state) :
  new_ArrayVectorFunction m flags = Ret this →
  getMetadata protoChain r target m = None →
  getMember (objects s) target m = MFun f →
  vectors_of_length (arrays s) (vectorizedParameterIndices this) params 0 →
  ∃ s',
    call protoChain getMember this r target params s
      = (Ret (VRef (length (arrays s))), s') ∧
    arrays s' !! length (arrays s) = Some [] ∧
    invocations s' = invocations s ∧
    objects s' = objects s.
Proof.
  intros Hnew Hnone Hf Hvec.
  destruct (new_ArrayVectorFunction_Ret _ _ _ Hnew) as (Hm & _ & _ & Hsome & _).
  rewrite <- Hm in Hnone, Hf.
  rewrite call_without_metadata, Hf by done. unfold vectorizeSingularCall.
  erewrite bind_Ret by (by eapply check_lengths_equal).
  rewrite elementwise_empty by done.
  eexists. split; [done |]. cbn [arrays objects invocations]. split_and!; try done.
  rewrite <- app_assoc. by apply list_lookup_middle.
Qed.

(** ** Specializations *)

Lemma get_length_state v (s : state) : (get_length v s).2 = s.
Proof. by destruct v. Qed.

(** The length check reads the arrays and changes nothing. *)
Lemma check_lengths_state indices params (s : state) :
  (check_lengths indices params s).2 = s.
Proof.
  unfold check_lengths. destruct (decide _); [| done]. unfold bind.
  assert (∀ (g : nat → M value) xs,
            (∀ x s, (g x s).2 = s) → ∀ s, (map_M g xs s).2 = s) as Hmap.
  { intros g xs Hg. induction xs as [| x xs IH]; intros s0; [done |].
    cbn [map_M]. unfold bind. specialize (Hg x s0).
    destruct (g x s0) as [[y | e] s1]; cbn [snd] in Hg; subst s1; [| done].
    specialize (IH s0). destruct (map_M g xs s0) as [[ys | e] s1]; cbn [snd] in IH; by subst. }
  specialize (Hmap (λ index, get_length (param params index)) indices
                (λ x s0, get_length_state (param params x) s0) s).
  destruct (map_M _ _ s) as [[lengths | e] s1]; cbn [snd] in Hmap; subst s1; [| done].
  by destruct (existsb _ _).
Qed.

(** [call] of the index-list revision is its length check followed by the
    [call] of [src/vectorized.ts] over the same loop. *)
Lemma call_indexed_unfold this (r : registry Obj St) target params :
  call_indexed protoChain getMember this r target params
  = (check_lengths (ivf_vectorizedParameterIndices this) params ;;;
     VectorFunction_call protoChain getMember
       (elementwise (ivf_vectorizedParameterIndices this) (ivf_sliceIndex this))
       r (ivf_method this) target params).
Proof. done. Qed.

(** C2, as the code has it.  With a function [g] as the specialization of
    the target and the method, [call] of [src/vectorized.ts] is the call of
    [g] with the target as receiver and the arguments of [call], whatever
    these are: it checks no lengths and records no call of the scalar
    method.  [call] of the index-list revision runs its length check first:
    with two or more vectorized positions and arrays of unequal lengths it
    throws the length error in the state it was called in, without calling
    [g]; with one vectorized position, or with arrays of one length, it is
    the call of [g]. *)
Theorem call_specialized this this' (r : registry Obj St) target params (s : state)
    declared (g : fn) :
  getMetadata protoChain r target (method this) = Some declared →
  truthy_special declared = true →
  match declared with
  | SFun f => f = g
  | SKey name => getMember (objects s) target name = MFun g
  end →
  ivf_method this' = method this →
  call protoChain getMember this r target params s = apply_fn g target params s ∧
  invocations (apply_fn g target params s).2 = invocations s ∧
  (1 < length (ivf_vectorizedParameterIndices this') →
   (∀ index, index ∈ ivf_vectorizedParameterIndices this' →
      ∃ n, has_vector (arrays s) params index n) →
   (¬ ∃ n, vectors_of_length (arrays s) (ivf_vectorizedParameterIndices this') params n) →
   call_indexed protoChain getMember this' r target params s
     = (Throw LengthMismatchError, s)) ∧
  (length (ivf_vectorizedParameterIndices this') ≤ 1 ∨
   (∃ n, vectors_of_length (arrays s) (ivf_vectorizedParameterIndices this') params n) →
   call_indexed protoChain getMember this' r target params s
     = apply_fn g target params s).
Proof.
  intros Hsome Htruthy Hg Hm. split_and!.
  - by eapply call_with_function.
  - unfold apply_fn. by destruct (g target params _) as [o [σ st]].
  - intros Hmany Hall Hneq. rewrite call_indexed_unfold.
    by erewrite bind_Throw by (by apply check_lengths_unequal).
  - intros Hok. rewrite call_indexed_unfold.
    erewrite bind_Ret.
    + eapply VectorFunction_call_with_function; rewrite ?Hm; done.
    + destruct Hok as [Hone | [n Hvec]]; [| by eapply check_lengths_equal].
      unfold check_lengths. by rewrite decide_False by lia.
Qed.

(** The metadata a decorator leaves for the objects below its holder. *)
Lemma getMetadata_declared (r0 : registry Obj St) holder m specialVersion target
    nearer further :
  protoChain target = nearer ++ holder :: further →
  (∀ o, o ∈ nearer → o ≠ holder ∧ r0 o m = None) →
  getMetadata protoChain (vectorized specialVersion holder m r0) target m
    = Some (default (SKey (KStr (String_of_key m +:+ "_vectorized"))) specialVersion).
Proof.
  intros Hchain Hnearer. unfold getMetadata. rewrite Hchain. clear Hchain.
  induction nearer as [| o nearer IH]; cbn [app getMetadata_along].
  - unfold vectorized, defineMetadata. by rewrite decide_True.
  - destruct (Hnearer o) as [Hne Hr0]; [left |].
    unfold vectorized at 1, defineMetadata at 1.
    rewrite decide_False by (by intros [? _]). rewrite Hr0.
    apply IH. intros o' Ho'. apply Hnearer. by right.
Qed.

(** C6.  After the decorator has declared [specialVersion] for the method on
    an object [holder] of the target's prototype chain (and no nearer object
    carries a declaration): if a function was declared, [call] calls that
    very function, with the target as receiver; if a name was declared, or
    none (the name is then the method's name followed by [_vectorized]),
    [call] reads the member of that name off the target in the state of
    this call and, when that member is a function, calls it with the target
    as receiver. *)
Theorem override_binding this (r0 : registry Obj St) holder specialVersion target
    nearer further params (s : state) :
  protoChain target = nearer ++ holder :: further →
  (∀ o, o ∈ nearer → o ≠ holder ∧ r0 o (method this) = None) →
  let r := vectorized specialVersion holder (method this) r0 in
  match default (SKey (KStr (String_of_key (method this) +:+ "_vectorized")))
          specialVersion with
  | SFun g =>
      call protoChain getMember this r target params s = apply_fn g target params s
  | SKey name =>
      truthy_key name = true →
      ∀ g, getMember (objects s) target name = MFun g →
           call protoChain getMember this r target params s
             = apply_fn g target params s
  end.
Proof.
  intros Hchain Hnearer r.
  pose proof (getMetadata_declared r0 holder (method this) specialVersion target
                nearer further Hchain Hnearer) as Hmeta.
  fold r in Hmeta. destruct (default _ specialVersion) as [name | g].
  - intros Htruthy g Hg. by eapply call_with_function.
  - by eapply call_with_function.
Qed.

(** C7.  When a name is declared and the target has no member of that name,
    [call] is the fallback on the scalar method: the failed resolution
    raises nothing. *)
Theorem unresolved_name_falls_back this (r : registry Obj St) target params
    (s : state) name :
  getMetadata protoChain r target (method this) = Some (SKey name) →
  getMember (objects s) target name = MVal VUndef →
  call protoChain getMember this r target params s
    = vectorizeSingularCall this target
        (getMember (objects s) target (method this)) params s.
Proof.
  intros Hsome Hmissing. unfold call, VectorFunction_call.
  erewrite bind_Ret.
  2:{ unfold specializedFunction_of. rewrite Hsome. reflexivity. }
  cbn [truthy_special]. destruct (truthy_key name); [by rewrite Hmissing | done].
Qed.

(** ** The index-list revision *)

(** Its constructor rejects the empty list of indices, and the default is
    position [0]. *)
Lemma new_IndexVectorFunction_empty m :
  new_IndexVectorFunction m (Some []) = Throw ConfigurationError.
Proof. done. Qed.

Lemma new_IndexVectorFunction_default m :
  new_IndexVectorFunction m None
    = Ret {| ivf_method := m; ivf_vectorizedParameterIndices := [0]; ivf_sliceIndex := 0 |}.
Proof. done. Qed.

(** Unequal lengths are rejected before the registry is consulted. *)
Lemma call_indexed_length_mismatch this (r : registry Obj St) target params (s : state) :
  1 < length (ivf_vectorizedParameterIndices this) →
  (∀ index, index ∈ ivf_vectorizedParameterIndices this →
     ∃ n, has_vector (arrays s) params index n) →
  (¬ ∃ n, vectors_of_length (arrays s) (ivf_vectorizedParameterIndices this) params n) →
  call_indexed protoChain getMember this r target params s
    = (Throw LengthMismatchError, s).
Proof.
  intros Hmany Hall Hneq. rewrite call_indexed_unfold.
  by erewrite bind_Throw by (by apply check_lengths_unequal).
Qed.

(** A successful construction takes the least index as [sliceIndex]. *)
Lemma new_IndexVectorFunction_Ret m vectorizedParameterIndices this :
  new_IndexVectorFunction m vectorizedParameterIndices = Ret this →
  ivf_method this = m ∧
  ivf_vectorizedParameterIndices this = default [0] vectorizedParameterIndices ∧
  ivf_vectorizedParameterIndices this ≠ [] ∧
  (∀ index, index ∈ ivf_vectorizedParameterIndices this → ivf_sliceIndex this ≤ index).
Proof.
  unfold new_IndexVectorFunction.
  destruct (default [0] vectorizedParameterIndices) as [| index rest]; [done |].
  intros [= <-]. cbn [ivf_method ivf_vectorizedParameterIndices ivf_sliceIndex].
  split_and!; try done. apply Math_min_lower.
Qed.

(** On the fallback path and on arrays of one length, the index-list
    revision runs the same loop: it ends in the invariant after [n]
    iterations, or with what the scalar method threw. *)
Lemma call_indexed_fallback this m vectorizedParameterIndices (r : registry Obj St)
    target (f : fn) params n σ0 inv0 :
  new_IndexVectorFunction m vectorizedParameterIndices = Ret this →
  getMetadata protoChain r target m = None →
  vectors_of_length σ0 (ivf_vectorizedParameterIndices this) params n →
  keeps_arrays f →
  hoare (λ s, arrays s = σ0 ∧ invocations s = inv0 ∧
              getMember (objects s) target m = MFun f)
    (call_indexed protoChain getMember this r target params)
    (λ v s, v = VRef (length σ0) ∧
            loop_invariant (ivf_vectorizedParameterIndices this) (ivf_sliceIndex this)
              target f params n σ0 inv0 n s)
    (loop_thrown (ivf_vectorizedParameterIndices this) target f params n σ0 inv0).
Proof.
  intros Hnew Hnone Hvec Hkeeps s (Hσ & Hinv & Hf).
  destruct (new_IndexVectorFunction_Ret _ _ _ Hnew) as (Hm & _ & Hsome & Hslice).
  rewrite call_indexed_unfold.
  erewrite bind_Ret by (apply (check_lengths_equal _ _ n); by rewrite Hσ).
  rewrite VectorFunction_call_without_metadata, Hm, Hf by (by rewrite Hm).
  by apply elementwise_spec.
Qed.

(** On the fallback path it leaves the arrays of the caller as they were,
    whenever the scalar method does. *)
Lemma call_indexed_fallback_frame this (r : registry Obj St) target params
    (s : state) l :
  getMetadata protoChain r target (ivf_method this) = None →
  l < length (arrays s) →
  (∀ f, getMember (objects s) target (ivf_method this) = MFun f → keeps_array_at l f) →
  ∀ o s',
    call_indexed protoChain getMember this r target params s = (o, s') →
    arrays s' !! l = arrays s !! l.
Proof.
  intros Hnone Hl Hf o s' Hcall.
  rewrite call_indexed_unfold in Hcall.
  pose proof (check_lengths_state (ivf_vectorizedParameterIndices this) params s) as Hs.
  unfold bind in Hcall.
  destruct (check_lengths _ _ s) as [[[] | e] s1]; cbn [snd] in Hs; subst s1;
    [| by injection Hcall as _ <-].
  rewrite VectorFunction_call_without_metadata in Hcall by done.
  apply lookup_lt_is_Some in Hl as [a Ha]. rewrite Ha.
  pose proof (frame_elementwise l a (ivf_vectorizedParameterIndices this)
                (ivf_sliceIndex this) target _ params Hf s Ha) as Hframe.
  rewrite Hcall in Hframe. by destruct o.
Qed.

(** With equal lengths it behaves as [call] of [src/vectorized.ts] does for
    the same indices. *)
Lemma call_indexed_equal_lengths this (r : registry Obj St) target params n (s : state) :
  vectors_of_length (arrays s) (ivf_vectorizedParameterIndices this) params n →
  call_indexed protoChain getMember this r target params s
    = VectorFunction_call protoChain getMember
        (elementwise (ivf_vectorizedParameterIndices this) (ivf_sliceIndex this))
        r (ivf_method this) target params s.
Proof.
  intros Hvec. rewrite call_indexed_unfold.
  by erewrite bind_Ret by (by eapply check_lengths_equal).
Qed.

(** ** What every scalar call receives *)

(** One step of the inner loop. *)
Lemma substitute_step (v0 : value) d j i (s : state) :
  (v <- get_index v0 i ;; assign d j v) s
  = if decide (v0 = VUndef) then (Throw TypeError, s)
    else (Ret tt, State (alter (js_set j (element (arrays s) v0 i)) d (arrays s))
                    (objects s) (invocations s)).
Proof. by destruct v0. Qed.

(** The inner loop writes to the vectorized positions of the window alone,
    whatever the vectorized arguments are; it throws only when one of them
    is [undefined]. *)
Lemma substitute_keeps_window indices sliceIndex params d i
    (vps : list (nat * value)) (s : state) :
  (∀ vp : nat * value, vp ∈ vps →
     vp.1 ∈ indices ∧ sliceIndex ≤ vp.1 ∧ vp.2 = param params vp.1) →
  window_invariant indices sliceIndex params d s →
  (∃ s', for_each vps (λ vp, v <- get_index vp.2 i ;; assign d (vp.1 - sliceIndex) v) s
           = (Ret tt, s') ∧
         window_invariant indices sliceIndex params d s' ∧
         objects s' = objects s ∧
         invocations s' = invocations s) ∨
  (∃ e s', for_each vps (λ vp, v <- get_index vp.2 i ;; assign d (vp.1 - sliceIndex) v) s
             = (Throw e, s') ∧
           invocations s' = invocations s ∧
           ∃ vp, vp ∈ vps ∧ vp.2 = VUndef).
Proof.
  revert s. induction vps as [| vp vps IH]; intros s Hvps Hw.
  { left. by exists s. }
  cbn [for_each].
  destruct (Hvps vp) as (Hel & Hle & Hvp); [left |].
  destruct (decide (vp.2 = VUndef)) as [Hundef | Hdef].
  { right. exists TypeError, s. split_and!; [| done |].
    - unfold bind at 1. rewrite substitute_step. by rewrite decide_True.
    - exists vp. split; [left | done]. }
  set (s1 := State (alter (js_set (vp.1 - sliceIndex) (element (arrays s) vp.2 i)) d
                      (arrays s)) (objects s) (invocations s)).
  assert (∀ rest : M unit,
            ((v <- get_index vp.2 i ;; assign d (vp.1 - sliceIndex) v) ;;; rest) s
            = rest s1) as Hstep.
  { intros rest. unfold bind at 1. rewrite substitute_step. by rewrite decide_False. }
  rewrite !Hstep.
  assert (window_invariant indices sliceIndex params d s1) as Hw1.
  { destruct Hw as (D & HD & HlenD & Hout).
    assert (vp.1 < length params) as Hlt.
    { rewrite Hvp in Hdef. unfold param in Hdef.
      destruct (params !! vp.1) as [p |] eqn:Hp; [by apply lookup_lt_Some in Hp | done]. }
    exists (<[vp.1 - sliceIndex := element (arrays s) vp.2 i]> D). split_and!.
    - unfold s1. cbn [arrays]. rewrite list_lookup_alter_eq, HD.
      cbn [fmap option_fmap option_map]. f_equal. apply js_set_in_range. lia.
    - by rewrite length_insert.
    - intros q Hq. rewrite list_lookup_insert_ne; [by apply Hout |].
      intros Heq. apply Hq. by replace (sliceIndex + q) with vp.1 by lia. }
  destruct (IH s1) as [(s' & Hrun & Hw' & Hobj & Hinv)
                      | (e & s' & Hrun & Hinv & vp' & Hvp' & Hundef')];
    [intros vp' Hvp'; apply Hvps; by right | done | |].
  - left. exists s'. by rewrite Hrun.
  - right. exists e, s'. rewrite Hrun. split_and!; [done | done |].
    exists vp'. split; [by right | done].
Qed.

(** One iteration: unless a vectorized argument is [undefined], the scalar
    method is called once, on arguments that are those of [call] outside the
    vectorized positions; when it returns, the window is again as the next
    iteration needs it. *)
Lemma iteration_keeps_window indices sliceIndex (target : Obj) (f : fn) params d res i
    (s : state) :
  (∀ index, index ∈ indices → sliceIndex ≤ index) →
  sliceIndex ≤ length params →
  res ≠ d →
  keeps_array_at d f →
  window_invariant indices sliceIndex params d s →
  (∃ e s',
     iteration indices (map (param params) indices) sliceIndex d res
       (λ a, invoke_scalar f target (take sliceIndex params ++ a)) i s
       = (Throw e, s') ∧
     invocations s' = invocations s ∧
     ∃ index, index ∈ indices ∧ param params index = VUndef) ∨
  (∃ (ev : event) s',
     iteration indices (map (param params) indices) sliceIndex d res
       (λ a, invoke_scalar f target (take sliceIndex params ++ a)) i s
       = (match ev.2 with Ret _ => Ret tt | Throw e => Throw e end, s') ∧
     invocations s' = invocations s ++ [ev] ∧
     passes_static indices params ev ∧
     (is_Ret ev.2 = true → window_invariant indices sliceIndex params d s')).
Proof.
  intros Hslice Hsl Hres Hkeeps Hw.
  destruct (iteration _ _ _ _ _ _ _ _) as [o s'] eqn:Hit.
  unfold iteration, substitute in Hit. rewrite zip_with_param in Hit.
  unfold bind at 1 in Hit.
  destruct (substitute_keeps_window indices sliceIndex params d i
              (map (λ index, (index, param params index)) indices) s)
    as [(s1 & Hsub & Hw1 & Hobj & Hinv1) | (e & s1 & Hsub & Hinv1 & vp & Hvp & Hundef)].
  { intros vp (index & -> & Hel)%list_elem_of_fmap. cbn [fst snd].
    split_and!; [done | by apply Hslice | done]. }
  { done. }
  2:{ rewrite Hsub in Hit. injection Hit as <- <-.
      left. exists e, s1. split_and!; [done | done |].
      apply list_elem_of_fmap in Hvp as (index & -> & Hel). by exists index. }
  rewrite Hsub in Hit.
  right. destruct Hw1 as (D & HD & HlenD & Hout).
  unfold bind, contents, invoke_scalar, assign, deref in Hit. rewrite HD in Hit.
  cbn [default from_option id] in Hit.
  assert (∀ r, passes_static indices params (take sliceIndex params ++ D, r)) as Hpass.
  { intros r j Hj. cbn [fst]. destruct (decide (j < sliceIndex)) as [Hlt | Hge].
    - rewrite lookup_app_l by (rewrite length_take; lia). by rewrite lookup_take_lt.
    - rewrite lookup_app_r by (rewrite length_take; lia).
      rewrite length_take, Nat.min_l by lia.
      rewrite Hout; [f_equal; lia |].
      by replace (sliceIndex + (j - sliceIndex)) with j by lia. }
  destruct (f target (take sliceIndex params ++ D) (arrays s1, objects s1))
    as [r [σ' st']] eqn:Hf.
  pose proof (Hkeeps _ _ _ _ _ _ _ Hf) as Hd.
  exists (take sliceIndex params ++ D, r), s'.
  destruct r as [v | e]; injection Hit as <- <-; cbn [fst snd invocations arrays].
  - split_and!; [done | by rewrite Hinv1 | done |].
    intros _. exists D. cbn [arrays].
    rewrite list_lookup_alter_ne by done. by rewrite Hd, HD.
  - split_and!; [done | by rewrite Hinv1 | done | done].
Qed.

(** The loop: every call it makes passes the static arguments; and unless a
    vectorized argument is [undefined], it makes one call per iteration
    until a call throws. *)
Lemma loop_keeps_window indices sliceIndex (target : Obj) (f : fn) params d res k :
  (∀ index, index ∈ indices → sliceIndex ≤ index) →
  sliceIndex ≤ length params →
  res ≠ d →
  keeps_array_at d f →
  ∀ i (s : state) o s',
    window_invariant indices sliceIndex params d s →
    for_each (seq i k)
      (iteration indices (map (param params) indices) sliceIndex d res
         (λ a, invoke_scalar f target (take sliceIndex params ++ a))) s
      = (o, s') →
    ∃ evs,
      invocations s' = invocations s ++ evs ∧
      Forall (passes_static indices params) evs ∧
      ((∀ index, index ∈ indices → param params index ≠ VUndef) →
       match o with
       | Ret _ => length evs = k
       | Throw e => 0 < length evs ≤ k ∧ ∃ args, last evs = Some (args, Throw e)
       end).
Proof.
  intros Hslice Hsl Hres Hkeeps.
  induction k as [| k IH]; intros i s o s' Hw Hloop.
  { injection Hloop as <- <-. exists []. by rewrite app_nil_r. }
  cbn [seq for_each] in Hloop. unfold bind in Hloop.
  destruct (iteration_keeps_window indices sliceIndex target f params d res i s
              Hslice Hsl Hres Hkeeps Hw)
    as [(e & s1 & Hit & Hinv1 & index & Hel & Hundef)
       | ([args r] & s1 & Hit & Hinv1 & Hpass & Hw1)];
    rewrite Hit in Hloop; cbn [fst snd] in *.
  - injection Hloop as <- <-. exists []. rewrite app_nil_r.
    split_and!; [done | done |]. intros Hdef. by destruct (Hdef index Hel).
  - destruct r as [v | e].
    + destruct (IH (S i) s1 o s' (Hw1 eq_refl) Hloop) as (evs & Hinv & Hall & Hcount).
      exists ((args, Ret v) :: evs). split_and!.
      * by rewrite Hinv, Hinv1, <- app_assoc.
      * by constructor.
      * intros Hdef. specialize (Hcount Hdef). destruct o as [[] | e].
        -- cbn [length]. by rewrite Hcount.
        -- destruct Hcount as [Hlen (args' & Hlast)]. cbn [length].
           split; [lia |]. exists args'.
           destruct evs as [| ev evs]; [cbn in Hlen; lia | done].
    + injection Hloop as <- <-. exists [(args, Throw e)].
      split_and!; [done | by constructor |].
      intros _. cbn [length]. split; [lia |]. by exists args.
Qed.

(** The statements of [elementwise] before its loop. *)
Lemma elementwise_without_vector indices sliceIndex (target : Obj) singularMethod params
    (s : state) index :
  indices !! 0 = Some index →
  param params index = VUndef →
  elementwise indices sliceIndex target singularMethod params s = (Throw TypeError, s).
Proof.
  intros Hindex Hp. unfold elementwise.
  rewrite list_lookup_fmap, Hindex.
  cbn [fmap option_fmap option_map default from_option id]. by rewrite Hp.
Qed.

Lemma elementwise_loop indices sliceIndex (target : Obj) (f : fn) params (s : state)
    index len a :
  indices !! 0 = Some index →
  get_length (param params index) s = (Ret len, s) →
  Array_of_length len = Ret a →
  elementwise indices sliceIndex target (MFun f) params s
  = (for_each (seq 0 (length a))
       (iteration indices (map (param params) indices) sliceIndex
          (S (length (arrays s))) (length (arrays s))
          (λ a, invoke_scalar f target (take sliceIndex params ++ a))) ;;;
     ret (VRef (length (arrays s))))
      (State ((arrays s ++ [a]) ++ [drop sliceIndex params])
         (objects s) (invocations s)).
Proof.
  intros Hindex Hlen Ha. unfold elementwise.
  rewrite list_lookup_fmap, Hindex. cbn [fmap option_fmap option_map default from_option id].
  erewrite bind_Ret by exact Hlen.
  unfold new_Array. rewrite Ha.
  erewrite bind_Ret by reflexivity. cbn [fst snd].
  erewrite bind_Ret by reflexivity.
  erewrite bind_Ret by reflexivity.
  cbn [arrays objects invocations]. rewrite !length_app. cbn [length].
  by replace (length (arrays s) + 1) with (S (length (arrays s))) by lia.
Qed.

(** C5.  [sliceIndex] is the least vectorized position: it is vectorized and
    no position before it is.  On the fallback path, whatever the arguments
    of [call] are, every call of the scalar method receives, at every
    position before [sliceIndex] and at every position from [sliceIndex] on
    that is not vectorized, the argument that [call] was given at that
    position.  These calls are made: with arrays of length [n] at the
    vectorized positions there are [n] of them when [call] returns, and when
    [call] throws [e] there is at least one and the last of them threw [e].
    The scalar method is any function that cannot write the array of dynamic
    arguments, which [call] creates as its second array and of which it
    hands out the elements alone. *)
Theorem static_arguments_pass_through this m flags (r : registry Obj St) target
    (f : fn) params (s : state) o s' :
  new_ArrayVectorFunction m flags = Ret this →
  getMetadata protoChain r target m = None →
  getMember (objects s) target m = MFun f →
  keeps_array_at (S (length (arrays s))) f →
  call protoChain getMember this r target params s = (o, s') →
  (flags !! sliceIndex this = Some true ∧
   ∀ j, j < sliceIndex this → flags !! j ≠ Some true) ∧
  ∃ evs,
    invocations s' = invocations s ++ evs ∧
    (∀ ev : event, ev ∈ evs →
       (∀ j, j < sliceIndex this → ev.1 !! j = params !! j) ∧
       (∀ j, sliceIndex this ≤ j → flags !! j ≠ Some true → ev.1 !! j = params !! j)) ∧
    ∀ n, vectors_of_length (arrays s) (vectorizedParameterIndices this) params n →
      match o with
      | Ret _ => length evs = n
      | Throw e => 0 < length evs ≤ n ∧ ∃ args, last evs = Some (args, Throw e)
      end.
Proof.
  intros Hnew Hnone Hf Hkeeps Hcall.
  destruct (new_ArrayVectorFunction_Ret _ _ _ Hnew) as (Hm & _ & Hindices & Hsome & Hin & Hlow).
  assert (∀ j, j < sliceIndex this → flags !! j ≠ Some true) as Hbefore.
  { intros j Hj Hflag%elem_of_indices_of_flags. rewrite <- Hindices in Hflag.
    apply Hlow in Hflag. lia. }
  split; [split; [apply elem_of_indices_of_flags; by rewrite <- Hindices | done] |].
  assert (∃ evs,
            invocations s' = invocations s ++ evs ∧
            Forall (passes_static (vectorizedParameterIndices this) params) evs ∧
            ∀ n, vectors_of_length (arrays s) (vectorizedParameterIndices this) params n →
              match o with
              | Ret _ => length evs = n
              | Throw e => 0 < length evs ≤ n ∧ ∃ args, last evs = Some (args, Throw e)
              end) as (evs & Hinv & Hpass & Hcount).
  2:{ exists evs. split_and!; [done | | done].
      intros ev Hev. rewrite Forall_forall in Hpass. specialize (Hpass ev Hev).
      split; intros j; intros; apply Hpass; rewrite Hindices, elem_of_indices_of_flags;
        [by apply Hbefore | done]. }
  assert (∃ index, vectorizedParameterIndices this !! 0 = Some index ∧
                   index ∈ vectorizedParameterIndices this) as (index & Hindex & Hel).
  { destruct (vectorizedParameterIndices this) as [| index rest]; [done |].
    exists index. split; [done | left]. }
  rewrite <- Hm in Hnone, Hf.
  rewrite call_without_metadata, Hf in Hcall by done.
  unfold vectorizeSingularCall in Hcall. unfold bind at 1 in Hcall.
  pose proof (check_lengths_state (vectorizedParameterIndices this) params s) as Hstate.
  destruct (check_lengths (vectorizedParameterIndices this) params s)
    as [[[] | e] s0] eqn:Hcheck; cbn [snd] in Hstate; subst s0.
  2:{ injection Hcall as <- <-. exists []. rewrite app_nil_r.
      split_and!; [done | done |]. intros n Hvec.
      by rewrite (check_lengths_equal _ _ n) in Hcheck. }
  destruct (decide (param params index = VUndef)) as [Hundef | Hdef].
  { rewrite (elementwise_without_vector _ _ _ _ _ _ index) in Hcall by done.
    injection Hcall as <- <-. exists []. rewrite app_nil_r.
    split_and!; [done | done |]. intros n Hvec.
    destruct (Hvec index Hel) as (l & xs & Hp & _).
    unfold param in Hundef. by rewrite Hp in Hundef. }
  assert (sliceIndex this ≤ length params) as Hsl.
  { specialize (Hlow index Hel). unfold param in Hdef.
    destruct (params !! index) as [p |] eqn:Hp; [| done].
    apply lookup_lt_Some in Hp. lia. }
  assert (∃ len a,
            get_length (param params index) s = (Ret len, s) ∧
            Array_of_length len = Ret a ∧
            ∀ n, has_vector (arrays s) params index n → length a = n)
    as (len & a & Hlen & Ha & Hn).
  { destruct (param params index) as [| z | l] eqn:Hp; [done | |].
    - exists VUndef, [VUndef]. split_and!; [done | done |].
      intros n (l & xs & Hp' & _). unfold param in Hp. by rewrite Hp' in Hp.
    - exists (VNum (Z.of_nat (length (deref (arrays s) l)))),
             (replicate (length (deref (arrays s) l)) VUndef).
      split_and!; [done | |].
      + unfold Array_of_length. rewrite decide_True by lia. by rewrite Nat2Z.id.
      + intros n (l' & xs & Hp' & Hl & <-). unfold param in Hp. rewrite Hp' in Hp.
        injection Hp as ->. unfold deref. rewrite Hl. apply length_replicate. }
  rewrite (elementwise_loop _ _ _ _ _ _ index len a) in Hcall by done.
  unfold bind in Hcall.
  match type of Hcall with
  | context [for_each ?l ?body ?s2] =>
      destruct (for_each l body s2) as [o2 s3] eqn:Hloop
  end.
  apply (loop_keeps_window (vectorizedParameterIndices this) (sliceIndex this)
           target f params) in Hloop as (evs & Hinv & Hpass & Hcount);
    [| done | done | lia | done |].
  2:{ exists (drop (sliceIndex this) params). cbn [arrays]. split_and!.
      - apply list_lookup_middle. rewrite length_app. cbn [length]. lia.
      - apply length_drop.
      - intros q _. apply lookup_drop. }
  cbn [invocations] in Hinv. exists evs.
  assert (∀ n, vectors_of_length (arrays s) (vectorizedParameterIndices this) params n →
               length a = n ∧
               ∀ index', index' ∈ vectorizedParameterIndices this →
                         param params index' ≠ VUndef) as Hvectors.
  { intros n Hvec. split; [apply Hn, Hvec, Hel |].
    intros index' Hel'. destruct (Hvec index' Hel') as (l & xs & Hp & _).
    unfold param. by rewrite Hp. }
  destruct o2 as [[] | e]; injection Hcall as <- <-.
  - split_and!; [done | done |]. intros n Hvec.
    destruct (Hvectors n Hvec) as [<- Hdefined]. by apply Hcount.
  - split_and!; [done | done |]. intros n Hvec.
    destruct (Hvectors n Hvec) as [<- Hdefined]. by apply Hcount.
Qed.

End EngineFacts.

(** * Further properties of the engine *)

Section EngineExtras.

Context {Obj St : Type} `{EqDecision Obj}.
Context (protoChain : Obj → list Obj) (getMember : St → Obj → key → member Obj St).

Abbreviation M := (M St).
Abbreviation state := (state St).
Abbreviation fn := (fn Obj St).

(** ** One iteration, exactly *)

(** One iteration of the loop calls the scalar method once, on the static
    prefix followed by the window as the inner loop left it, and stores the
    result when there is one. *)
Lemma iteration_exact indices sliceIndex (target : Obj) (f : fn) params d res i
    (s : state) :
  let pairs := map (λ index, (index, param params index)) indices in
  let σ1 := alter (window_after (arrays s) sliceIndex i pairs) d (arrays s) in
  let args := take sliceIndex params ++ deref σ1 d in
  (∀ vp, vp ∈ pairs → vp.2 ≠ VUndef ∧ vp.2 ≠ VRef d) →
  iteration indices (map (param params) indices) sliceIndex d res
    (λ a, invoke_scalar f target (take sliceIndex params ++ a)) i s
  = match f target args (σ1, objects s) with
    | (Ret v, (σ', st')) =>
        (Ret tt, State (alter (js_set i v) res σ') st'
                   (invocations s ++ [(args, Ret v)]))
    | (Throw e, (σ', st')) =>
        (Throw e, State σ' st' (invocations s ++ [(args, Throw e)]))
    end.
Proof.
  intros pairs σ1 args Hpairs. unfold iteration, substitute.
  rewrite zip_with_param. fold pairs.
  erewrite bind_Ret by (by apply substitute_run).
  erewrite bind_Ret by reflexivity.
  cbn [arrays]. fold σ1. fold args.
  unfold bind, invoke_scalar. cbn [arrays objects invocations].
  by destruct (f target args _) as [[v | e] [σ' st']].
Qed.

(** The arrays at the vectorized positions are not the window, which is
    created after them. *)
Lemma vectors_are_not_the_window σ0 indices params n vp :
  vectors_of_length σ0 indices params n →
  vp ∈ map (λ index, (index, param params index)) indices →
  vp.2 ≠ VUndef ∧ vp.2 ≠ VRef (S (length σ0)).
Proof.
  intros Hvec (index & -> & Hel)%list_elem_of_fmap.
  destruct (Hvec index Hel) as (l & xs & Hp & Hl & _).
  unfold param. rewrite Hp. cbn. split; [done |].
  intros [= ->]. apply lookup_lt_Some in Hl. lia.
Qed.

(** Under the invariant, the arguments of iteration [i] are the argument
    list of the specification for element [i]. *)
Lemma iteration_args indices sliceIndex (target : Obj) (f : fn) params n σ0 inv0 i
    (s : state) :
  vectors_of_length σ0 indices params n →
  (∀ index, index ∈ indices → sliceIndex ≤ index) →
  indices ≠ [] →
  loop_invariant indices sliceIndex target f params n σ0 inv0 i s →
  let pairs := map (λ index, (index, param params index)) indices in
  take sliceIndex params
    ++ deref (alter (window_after (arrays s) sliceIndex i pairs) (S (length σ0))
                (arrays s)) (S (length σ0))
  = element_args σ0 indices params i.
Proof.
  intros Hvec Hslice Hsome (rs & D & _ & _ & HD & HlenD & Hout & Hkept & _) pairs.
  assert (∀ index, index ∈ indices → sliceIndex ≤ index < length params) as Hin.
  { intros index Hel. split; [by apply Hslice |].
    destruct (Hvec index Hel) as (l & xs & Hp & _). by apply lookup_lt_Some in Hp. }
  assert (sliceIndex ≤ length params) as Hsl.
  { destruct indices as [| index rest]; [done |].
    destruct (Hin index); [left | lia]. }
  unfold deref. rewrite list_lookup_alter_eq, HD.
  cbn [fmap option_fmap option_map default from_option id].
  rewrite (window_after_ext σ0).
  - by apply static_and_window.
  - intros vp (index & -> & Hel)%list_elem_of_fmap.
    destruct (Hvec index Hel) as (l & xs & Hp & Hl & _).
    unfold param. rewrite Hp. cbn [snd default from_option id].
    unfold element, deref. by rewrite (Hkept l xs Hl), Hl.
Qed.

(** ** What a throw of the scalar method leaves *)

Lemma loop_first_throw indices sliceIndex (target : Obj) (f : fn) params n σ0 inv0 k :
  vectors_of_length σ0 indices params n →
  (∀ index, index ∈ indices → sliceIndex ≤ index) →
  indices ≠ [] →
  keeps_arrays f →
  let args := element_args σ0 indices params in
  ∀ i (s : state) e s',
    loop_invariant indices sliceIndex target f params n σ0 inv0 i s →
    i + k = n →
    for_each (seq i k)
      (iteration indices (map (param params) indices) sliceIndex
         (S (length σ0)) (length σ0)
         (λ a, invoke_scalar f target (take sliceIndex params ++ a))) s
      = (Throw e, s') →
    ∃ j rs,
      j < n ∧ length rs = j ∧
      invocations s' = inv0 ++ zip (map args (seq 0 j)) (map Ret rs)
                            ++ [(args j, Throw e)] ∧
      ∃ w, (f target (args j) w).1 = Throw e.
Proof.
  intros Hvec Hslice Hsome Hkeeps args.
  induction k as [| k IH]; intros i s e s' HInv Hik Hloop; [done |].
  cbn [seq for_each] in Hloop. unfold bind in Hloop.
  pose proof (iteration_spec indices sliceIndex target f params n σ0 inv0
                Hvec Hslice Hsome Hkeeps i ltac:(lia) s HInv) as Hstep.
  pose proof (iteration_exact indices sliceIndex target f params
                (S (length σ0)) (length σ0) i s) as Hexact.
  cbv zeta in Hexact.
  rewrite (iteration_args indices sliceIndex target f params n σ0 inv0 i s)
    in Hexact by done.
  fold (args i) in Hexact.
  rewrite Hexact in Hloop, Hstep
    by (intros; by eapply vectors_are_not_the_window).
  destruct (f target (args i) _) as [[v | e0] [σ' st']] eqn:Hf.
  - by eapply IH; [exact Hstep | lia | exact Hloop].
  - injection Hloop as <- <-.
    destruct HInv as (rs & D & Hlen & _ & _ & _ & _ & _ & Hinv & _).
    exists i, rs. cbn [invocations]. split_and!; [lia | done | |].
    + by rewrite Hinv, <- app_assoc.
    + eexists. by rewrite Hf.
Qed.

(** X1.  On the fallback path, with arrays of one length and a scalar
    method that writes no existing array: when [call] throws [e], the scalar
    method threw [e] at some element [i], the calls recorded are those for
    the elements [0 .. i], of which the first [i] returned, and none was made
    after the throw. *)
Theorem call_fallback_first_throw this m flags (r : registry Obj St) target (f : fn)
    params n (s : state) e s' :
  new_ArrayVectorFunction m flags = Ret this →
  getMetadata protoChain r target m = None →
  getMember (objects s) target m = MFun f →
  vectors_of_length (arrays s) (vectorizedParameterIndices this) params n →
  keeps_arrays f →
  call protoChain getMember this r target params s = (Throw e, s') →
  let args := element_args (arrays s) (vectorizedParameterIndices this) params in
  ∃ i results,
    i < n ∧ length results = i ∧
    invocations s' = invocations s ++ zip (map args (seq 0 i)) (map Ret results)
                                   ++ [(args i, Throw e)] ∧
    ∃ w, (f target (args i) w).1 = Throw e.
Proof.
  intros Hnew Hnone Hf Hvec Hkeeps Hcall args.
  destruct (new_ArrayVectorFunction_Ret _ _ _ Hnew) as (Hm & _ & _ & Hsome & _ & Hslice).
  rewrite <- Hm in Hnone, Hf.
  rewrite call_without_metadata, Hf in Hcall by done.
  unfold vectorizeSingularCall in Hcall.
  erewrite bind_Ret in Hcall by (by eapply check_lengths_equal).
  assert (∃ index, vectorizedParameterIndices this !! 0 = Some index) as [index Hindex].
  { destruct (vectorizedParameterIndices this) as [| index rest]; [done |]. by exists index. }
  rewrite (elementwise_start _ _ _ _ _ n s index) in Hcall
    by (done || by eapply Hvec, list_elem_of_lookup_2).
  unfold bind in Hcall.
  destruct (for_each _ _ _) as [[[] | e0] s0] eqn:Hloop; [done |].
  injection Hcall as -> ->.
  eapply (loop_first_throw _ _ _ _ _ n (arrays s) (invocations s) n);
    [done | done | done | done | | | exact Hloop]; [by apply loop_start | done].
Qed.

(** ** Scalar methods with state *)

Lemma scalar_keeps_arrays (g : Obj → list value → St → outcome value * St) :
  keeps_arrays (scalar g).
Proof.
  intros this args σ st r σ' st' Hcall l a Hl. unfold scalar in Hcall.
  cbn [fst snd] in Hcall. destruct (g this args st) as [r0 st0].
  by injection Hcall as _ <- _.
Qed.

(** From iteration [i] on, the loop does what [map_scalar] does on the
    remaining argument lists, and appends the results to those it has. *)
Lemma loop_map_scalar indices sliceIndex (target : Obj)
    (g : Obj → list value → St → outcome value * St) params n σ0 inv0 k :
  vectors_of_length σ0 indices params n →
  (∀ index, index ∈ indices → sliceIndex ≤ index) →
  indices ≠ [] →
  let args := element_args σ0 indices params in
  ∀ i (s : state) rs,
    loop_invariant indices sliceIndex target (scalar g) params n σ0 inv0 i s →
    arrays s !! length σ0 = Some (rs ++ replicate (n - i) VUndef) →
    length rs = i →
    i + k = n →
    let after :=
      for_each (seq i k)
        (iteration indices (map (param params) indices) sliceIndex
           (S (length σ0)) (length σ0)
           (λ a, invoke_scalar (scalar g) target (take sliceIndex params ++ a))) s in
    match map_scalar g target (map args (seq i k)) (objects s) with
    | (Ret vs, st') =>
        after.1 = Ret tt ∧ objects after.2 = st' ∧
        arrays after.2 !! length σ0 = Some (rs ++ vs)
    | (Throw e, st') => after.1 = Throw e ∧ objects after.2 = st'
    end.
Proof.
  intros Hvec Hslice Hsome args.
  induction k as [| k IH]; intros i s rs HInv HL Hlen Hik after; subst after.
  { cbn [seq map map_scalar for_each]. unfold ret. cbn [fst snd].
    split_and!; [done | done |]. by replace (n - i) with 0 in HL by lia. }
  cbn [seq map map_scalar for_each]. unfold bind.
  pose proof (iteration_spec indices sliceIndex target (scalar g) params n σ0 inv0
                Hvec Hslice Hsome (scalar_keeps_arrays g) i ltac:(lia) s HInv) as Hstep.
  pose proof (iteration_exact indices sliceIndex target (scalar g) params
                (S (length σ0)) (length σ0) i s) as Hexact.
  cbv zeta in Hexact.
  rewrite (iteration_args indices sliceIndex target (scalar g) params n σ0 inv0 i s)
    in Hexact by done.
  fold (args i) in Hexact.
  specialize (Hexact ltac:(intros; by eapply vectors_are_not_the_window)).
  set (σ1 := alter _ (S (length σ0)) (arrays s)) in Hexact.
  assert (σ1 !! length σ0 = Some (rs ++ replicate (n - i) VUndef)) as HL1.
  { unfold σ1. by rewrite list_lookup_alter_ne by lia. }
  destruct (g target (args i) (objects s)) as [[v | e] st1] eqn:Hg.
  - assert (scalar g target (args i) (σ1, objects s) = (Ret v, (σ1, st1))) as Hs.
    { unfold scalar. cbn [fst snd]. by rewrite Hg. }
    rewrite Hs in Hexact. rewrite Hexact in Hstep |- *.
    match goal with
    | |- context [for_each _ _ ?s2] =>
        specialize (IH (S i) s2 (rs ++ [v]) Hstep)
    end.
    cbn [arrays objects] in IH. cbv zeta in IH.
    assert (alter (js_set i v) (length σ0) σ1 !! length σ0
            = Some ((rs ++ [v]) ++ replicate (n - S i) VUndef)) as HL2.
    { rewrite list_lookup_alter_eq, HL1.
      cbn [fmap option_fmap option_map]. f_equal.
      rewrite js_set_in_range by (rewrite length_app, length_replicate; lia).
      rewrite insert_app_r_alt by lia.
      replace (i - length rs) with 0 by lia.
      replace (n - i) with (S (n - S i)) by lia.
      cbn [replicate]. by rewrite <- app_assoc. }
    specialize (IH HL2 ltac:(rewrite length_app; cbn [length]; lia) ltac:(lia)).
    destruct (map_scalar g target (map args (seq (S i) k)) st1) as [[vs | e] st2].
    + destruct IH as (Hret & Hobjects & Hresults).
      split_and!; [done | done |]. by rewrite Hresults, <- app_assoc.
    + done.
  - assert (scalar g target (args i) (σ1, objects s) = (Throw e, (σ1, st1))) as Hs.
    { unfold scalar. cbn [fst snd]. by rewrite Hg. }
    rewrite Hs in Hexact. rewrite Hexact. done.
Qed.

(** X2.  For a scalar method that works on the objects alone, the fallback
    is the map of the method over the argument lists of the elements, with
    the state of the objects passed from each call to the next: [call]
    returns a new array of the results and leaves the objects in the last
    state, or throws what the first failing call threw and leaves the
    objects as that call left them. *)
Theorem call_fallback_threads_state this m flags (r : registry Obj St) target
    (g : Obj → list value → St → outcome value * St) params n (s : state) :
  new_ArrayVectorFunction m flags = Ret this →
  getMetadata protoChain r target m = None →
  getMember (objects s) target m = MFun (scalar g) →
  vectors_of_length (arrays s) (vectorizedParameterIndices this) params n →
  let argss :=
    map (element_args (arrays s) (vectorizedParameterIndices this) params) (seq 0 n) in
  let after := call protoChain getMember this r target params s in
  match map_scalar g target argss (objects s) with
  | (Ret results, st') =>
      after.1 = Ret (VRef (length (arrays s))) ∧
      arrays after.2 !! length (arrays s) = Some results ∧
      objects after.2 = st'
  | (Throw e, st') => after.1 = Throw e ∧ objects after.2 = st'
  end.
Proof.
  intros Hnew Hnone Hf Hvec argss after. subst argss after.
  destruct (new_ArrayVectorFunction_Ret _ _ _ Hnew) as (Hm & _ & _ & Hsome & _ & Hslice).
  rewrite <- Hm in Hnone, Hf.
  rewrite call_without_metadata, Hf by done.
  unfold vectorizeSingularCall.
  erewrite bind_Ret by (by eapply check_lengths_equal).
  assert (∃ index, vectorizedParameterIndices this !! 0 = Some index) as [index Hindex].
  { destruct (vectorizedParameterIndices this) as [| index rest]; [done |]. by exists index. }
  rewrite (elementwise_start _ _ _ _ _ n s index)
    by (done || by eapply Hvec, list_elem_of_lookup_2).
  unfold bind.
  match goal with
  | |- context [for_each _ _ ?s1] =>
      pose proof (loop_map_scalar (vectorizedParameterIndices this) (sliceIndex this)
                    target g params n (arrays s) (invocations s) n
                    Hvec Hslice Hsome 0 s1 []) as Hloop
  end.
  cbv zeta in Hloop. cbn [objects arrays] in Hloop.
  destruct (map_scalar _ _ _ _) as [[results | e] st'].
  - destruct Hloop as (Hret & Hobjects & Hresults).
    + by apply loop_start.
    + rewrite Nat.sub_0_r, <- app_assoc. by apply list_lookup_middle.
    + done.
    + done.
    + destruct (for_each _ _ _) as [o s2]. cbn [fst snd] in *. subst o.
      unfold ret. cbn [fst snd]. done.
  - destruct Hloop as (Hthrow & Hobjects).
    + by apply loop_start.
    + rewrite Nat.sub_0_r, <- app_assoc. by apply list_lookup_middle.
    + done.
    + done.
    + destruct (for_each _ _ _) as [o s2]. cbn [fst snd] in *. by subst o.
Qed.

(** ** Arguments that are not arrays *)

Lemma map_M_get_length_undefined params indices index (s : state) :
  index ∈ indices → param params index = VUndef →
  map_M (λ index, get_length (param params index)) indices s = (Throw TypeError, s).
Proof.
  intros Hel Hundef. induction indices as [| index' indices IH]; [by apply elem_of_nil in Hel |].
  cbn [map_M]. destruct (param params index') as [| z | l] eqn:Hp.
  - by erewrite bind_Throw by reflexivity.
  - erewrite bind_Ret by reflexivity.
    apply elem_of_cons in Hel as [-> | Hel]; [congruence |].
    by erewrite bind_Throw by (by apply IH).
  - erewrite bind_Ret by reflexivity.
    apply elem_of_cons in Hel as [-> | Hel]; [congruence |].
    by erewrite bind_Throw by (by apply IH).
Qed.

(** X3.  On the fallback path, when the argument at a vectorized position is
    [undefined] (or the call has too few arguments for that position),
    [call] throws a [TypeError] in the state it was called in: no array is
    created and the scalar method is not called. *)
Theorem call_fallback_missing_vector this m flags (r : registry Obj St) target
    params index (s : state) :
  new_ArrayVectorFunction m flags = Ret this →
  getMetadata protoChain r target m = None →
  index ∈ vectorizedParameterIndices this →
  param params index = VUndef →
  call protoChain getMember this r target params s = (Throw TypeError, s).
Proof.
  intros Hnew Hnone Hel Hundef.
  destruct (new_ArrayVectorFunction_Ret _ _ _ Hnew) as (Hm & _).
  rewrite call_without_metadata by (by rewrite Hm).
  unfold vectorizeSingularCall, check_lengths.
  destruct (decide (1 < length (vectorizedParameterIndices this))) as [Hmany | Hone].
  - erewrite bind_Throw; [done |].
    by erewrite bind_Throw by (by eapply map_M_get_length_undefined).
  - erewrite bind_Ret by reflexivity.
    destruct (vectorizedParameterIndices this) as [| index' [| ? ?]];
      [by apply elem_of_nil in Hel | | cbn [length] in Hone; lia].
    apply list_elem_of_singleton in Hel as ->.
    unfold elementwise. cbn [map lookup list_lookup default from_option id].
    rewrite Hundef. by erewrite bind_Throw by reflexivity.
Qed.

(** X4.  On the fallback path, with a single vectorized position that holds
    a number instead of an array, [call] does not reject the argument: it
    calls the scalar method once, with [undefined] at that position, and
    returns a new array when that call returns. *)
Theorem call_fallback_number_for_vector this m flags (r : registry Obj St) target
    (f : fn) params index z (s : state) :
  new_ArrayVectorFunction m flags = Ret this →
  vectorizedParameterIndices this = [index] →
  getMetadata protoChain r target m = None →
  getMember (objects s) target m = MFun f →
  params !! index = Some (VNum z) →
  let after := call protoChain getMember this r target params s in
  ∃ outcome_of_call,
    invocations after.2
      = invocations s ++ [(<[index := VUndef]> params, outcome_of_call)] ∧
    after.1 = match outcome_of_call with
              | Ret _ => Ret (VRef (length (arrays s)))
              | Throw e => Throw e
              end.
Proof.
  intros Hnew Hindices Hnone Hf Hp after. subst after.
  destruct (call protoChain getMember this r target params s) as [o s'] eqn:Hcall.
  cbn [fst snd].
  destruct (new_ArrayVectorFunction_Ret _ _ _ Hnew) as (Hm & _ & _ & _ & Hin & _).
  rewrite Hindices in Hin. apply list_elem_of_singleton in Hin.
  rewrite <- Hm in Hnone, Hf.
  rewrite call_without_metadata, Hf in Hcall by done.
  unfold vectorizeSingularCall, check_lengths in Hcall. rewrite Hindices, Hin in Hcall.
  cbn [length] in Hcall. rewrite decide_False in Hcall by lia.
  erewrite bind_Ret in Hcall by reflexivity.
  assert (param params index = VNum z) as Hparam by (unfold param; by rewrite Hp).
  unfold elementwise in Hcall.
  cbn [map lookup list_lookup default from_option id] in Hcall.
  rewrite Hparam in Hcall.
  erewrite bind_Ret in Hcall by reflexivity.
  erewrite bind_Ret in Hcall by reflexivity.
  cbn [fst snd length seq for_each] in Hcall.
  erewrite bind_Ret in Hcall by reflexivity.
  erewrite bind_Ret in Hcall by reflexivity.
  pose proof (iteration_exact [index] index target f params) as Hexact.
  cbv zeta in Hexact. cbn [map] in Hexact. rewrite Hparam in Hexact.
  unfold bind at 1 in Hcall. unfold bind at 1 in Hcall.
  rewrite Hexact in Hcall.
  2:{ intros vp ->%list_elem_of_singleton. by cbn. }
  cbn [arrays objects invocations] in Hcall. rewrite !length_app in Hcall.
  cbn [length] in Hcall.
  unfold deref in Hcall. rewrite list_lookup_alter_eq in Hcall.
  rewrite list_lookup_middle in Hcall by (rewrite length_app; cbn [length]; lia).
  cbn [fmap option_fmap option_map default from_option id] in Hcall.
  rewrite window_after_cons in Hcall. cbn [window_after foldl fst snd element] in Hcall.
  rewrite Nat.sub_diag in Hcall.
  assert (take index params ++ js_set 0 VUndef (drop index params)
          = <[index := VUndef]> params) as Hargs.
  { apply lookup_lt_Some in Hp.
    rewrite js_set_in_range by (rewrite length_drop; lia).
    rewrite <- (take_drop index params) at 3.
    rewrite insert_app_r_alt by (rewrite length_take; lia).
    by rewrite length_take, Nat.min_l, Nat.sub_diag by lia. }
  rewrite Hargs in Hcall.
  destruct (f target _ _) as [[v | e] [σ' st']];
    unfold ret in Hcall; injection Hcall as <- <-; cbn [invocations]; by eexists.
Qed.

(** X5.  On the fallback path, with arrays of one length, a target whose
    scalar method is not a function makes [call] throw a [TypeError] after
    the result array and the window have been created: no call is recorded
    and the objects are as they were. *)
Theorem call_fallback_missing_method this m flags (r : registry Obj St) target
    v params n (s : state) :
  new_ArrayVectorFunction m flags = Ret this →
  getMetadata protoChain r target m = None →
  getMember (objects s) target m = MVal v →
  vectors_of_length (arrays s) (vectorizedParameterIndices this) params n →
  call protoChain getMember this r target params s
    = (Throw TypeError,
       State ((arrays s ++ [replicate n VUndef]) ++ [drop (sliceIndex this) params])
         (objects s) (invocations s)).
Proof.
  intros Hnew Hnone Hf Hvec.
  destruct (new_ArrayVectorFunction_Ret _ _ _ Hnew) as (Hm & _ & _ & Hsome & _).
  rewrite <- Hm in Hnone, Hf.
  rewrite call_without_metadata, Hf by done. unfold vectorizeSingularCall.
  erewrite bind_Ret by (by eapply check_lengths_equal).
  unfold elementwise.
  destruct (vectorizedParameterIndices this) as [| index rest]; [done |].
  cbn [map lookup list_lookup default from_option id].
  erewrite bind_Ret
    by (apply (get_length_vector (arrays s) _ _ n); [done | apply Hvec; left]).
  unfold new_Array, Array_of_length. rewrite decide_True by lia.
  rewrite Nat2Z.id.
  erewrite bind_Ret by reflexivity. cbn [fst snd].
  erewrite bind_Ret by reflexivity.
  by erewrite bind_Throw by reflexivity.
Qed.

(** ** Declared names that are not functions *)

(** X6.  When the declared name is the name of a member of the target that
    is not a function but is truthy, [call] does not fall back: it throws a
    [TypeError] in the state it was called in. *)
Theorem call_member_not_a_function this (r : registry Obj St) target params
    (s : state) name v :
  getMetadata protoChain r target (method this) = Some (SKey name) →
  truthy_key name = true →
  getMember (objects s) target name = MVal v →
  truthy v = true →
  call protoChain getMember this r target params s = (Throw TypeError, s).
Proof.
  intros Hsome Hname Hmember Htruthy. unfold call, VectorFunction_call.
  erewrite bind_Ret.
  2:{ unfold specializedFunction_of. rewrite Hsome. cbn [truthy_special].
      rewrite Hname, Hmember. reflexivity. }
  cbn [truthy_member]. by rewrite Htruthy.
Qed.

(** ** Declarations for other methods and other objects *)

Lemma getMetadata_other (r : registry Obj St) specialVersion holder m' target m :
  m ≠ m' ∨ holder ∉ protoChain target →
  getMetadata protoChain (vectorized specialVersion holder m' r) target m
    = getMetadata protoChain r target m.
Proof.
  intros Hother. unfold getMetadata.
  assert (m ≠ m' ∨ holder ∉ protoChain target) as H' by done. revert H'.
  generalize (protoChain target). intros chain Hchain.
  induction chain as [| o chain IH]; [done |].
  cbn [getMetadata_along]. unfold vectorized at 1, defineMetadata at 1.
  rewrite decide_False.
  - rewrite IH; [done |]. destruct Hchain as [? | Hnot]; [by left | right].
    intros ?. apply Hnot. by right.
  - intros [-> ->]. destruct Hchain as [? | Hnot]; [done |]. apply Hnot. left.
Qed.

(** X7.  A declaration for another method, or on an object that is not on
    the prototype chain of the target, changes nothing of what [call] does
    for this method and this target. *)
Theorem call_ignores_other_declarations this (r : registry Obj St) specialVersion
    holder m' target params (s : state) :
  method this ≠ m' ∨ holder ∉ protoChain target →
  call protoChain getMember this (vectorized specialVersion holder m' r) target params s
    = call protoChain getMember this r target params s.
Proof.
  intros Hother. unfold call, VectorFunction_call, specializedFunction_of.
  by rewrite getMetadata_other.
Qed.

(** ** The number of calls *)

Lemma loop_call_count indices sliceIndex (target : Obj) (f : fn) params d res k :
  (∀ vp, vp ∈ map (λ index, (index, param params index)) indices →
         vp.2 ≠ VUndef ∧ vp.2 ≠ VRef d) →
  returns f →
  ∀ i (s : state),
    ∃ s',
      for_each (seq i k)
        (iteration indices (map (param params) indices) sliceIndex d res
           (λ a, invoke_scalar f target (take sliceIndex params ++ a))) s
        = (Ret tt, s') ∧
      length (invocations s') = length (invocations s) + k.
Proof.
  intros Hpairs Hreturns. induction k as [| k IH]; intros i s.
  { exists s. split; [done | lia]. }
  cbn [seq for_each]. unfold bind.
  pose proof (iteration_exact indices sliceIndex target f params d res i s) as Hexact.
  cbv zeta in Hexact. rewrite Hexact by done.
  match goal with
  | |- context [f target ?a ?w] =>
      pose proof (Hreturns target a w) as Hret;
      destruct (f target a w) as [[v | e] [σ' st']]; [| done]
  end.
  match goal with
  | |- context [for_each _ _ ?s2] => destruct (IH (S i) s2) as (s' & Hloop & Hcount)
  end.
  exists s'. split; [done |]. rewrite Hcount. cbn [invocations].
  rewrite length_app. cbn [length]. lia.
Qed.

(** X8.  On the fallback path the number of scalar calls is fixed when the
    loop starts: with arrays of length [n] at the vectorized positions and
    a scalar method that returns, [call] returns after exactly [n] calls,
    whatever the scalar method does to the arrays meanwhile. *)
Theorem call_fallback_call_count this m flags (r : registry Obj St) target (f : fn)
    params n (s : state) :
  new_ArrayVectorFunction m flags = Ret this →
  getMetadata protoChain r target m = None →
  getMember (objects s) target m = MFun f →
  vectors_of_length (arrays s) (vectorizedParameterIndices this) params n →
  returns f →
  ∃ s',
    call protoChain getMember this r target params s
      = (Ret (VRef (length (arrays s))), s') ∧
    length (invocations s') = length (invocations s) + n.
Proof.
  intros Hnew Hnone Hf Hvec Hreturns.
  destruct (new_ArrayVectorFunction_Ret _ _ _ Hnew) as (Hm & _ & _ & Hsome & _).
  rewrite <- Hm in Hnone, Hf.
  rewrite call_without_metadata, Hf by done.
  unfold vectorizeSingularCall.
  erewrite bind_Ret by (by eapply check_lengths_equal).
  assert (∃ index, vectorizedParameterIndices this !! 0 = Some index) as [index Hindex].
  { destruct (vectorizedParameterIndices this) as [| index rest]; [done |]. by exists index. }
  rewrite (elementwise_start _ _ _ _ _ n s index)
    by (done || by eapply Hvec, list_elem_of_lookup_2).
  unfold bind.
  match goal with
  | |- context [for_each _ _ ?s1] =>
      destruct (loop_call_count (vectorizedParameterIndices this) (sliceIndex this)
                  target f params (S (length (arrays s))) (length (arrays s)) n
                  ltac:(intros; by eapply vectors_are_not_the_window) Hreturns 0 s1)
        as (s' & Hloop & Hcount)
  end.
  rewrite Hloop. exists s'. done.
Qed.

(** ** The earlier revisions *)

(** X9.  The index-list revision, on the fallback path: for every list of
    indices the constructor accepts (in any order, with repetitions), with
    arrays of length [n] at these positions and a scalar method that returns
    and writes no existing array, [call] returns a new array of length [n],
    and the calls recorded are those for the elements [0 .. n-1] in
    ascending order, each with what it returned. *)
Theorem call_indexed_elementwise this m vectorizedParameterIndices
    (r : registry Obj St) target (f : fn) params n (s : state) :
  new_IndexVectorFunction m vectorizedParameterIndices = Ret this →
  getMetadata protoChain r target m = None →
  getMember (objects s) target m = MFun f →
  vectors_of_length (arrays s) (ivf_vectorizedParameterIndices this) params n →
  keeps_arrays f →
  returns f →
  let args := element_args (arrays s) (ivf_vectorizedParameterIndices this) params in
  ∃ results s',
    call_indexed protoChain getMember this r target params s
      = (Ret (VRef (length (arrays s))), s') ∧
    arrays s' !! length (arrays s) = Some results ∧
    length results = n ∧
    invocations s' = invocations s ++ zip (map args (seq 0 n)) (map Ret results).
Proof.
  intros Hnew Hnone Hf Hvec Hkeeps Hreturns args.
  pose proof (call_indexed_fallback protoChain getMember this m
                vectorizedParameterIndices r target f params n (arrays s)
                (invocations s) Hnew Hnone Hvec Hkeeps s
                (conj eq_refl (conj eq_refl Hf))) as Hspec.
  destruct (call_indexed _ _ _ _ _ _ s) as [[v | e] s'].
  - destruct Hspec as (-> & rs & D & Hlen & HL & _ & _ & _ & _ & Hinv & _).
    exists rs, s'. rewrite Nat.sub_diag, app_nil_r in HL. done.
  - destruct Hspec as [(this' & args' & w & Hthrow) _].
    specialize (Hreturns this' args' w). by rewrite Hthrow in Hreturns.
Qed.

(** X10.  The index-list revision rejects arrays of unequal lengths before
    it consults the registry: with two or more indices it throws the length
    error in the state it was called in, whatever is declared for the
    target and whatever the members of the target are. *)
Theorem call_indexed_rejects_unequal_lengths this (r : registry Obj St) target params
    (s : state) :
  1 < length (ivf_vectorizedParameterIndices this) →
  (∀ index, index ∈ ivf_vectorizedParameterIndices this →
     ∃ n, has_vector (arrays s) params index n) →
  (¬ ∃ n, vectors_of_length (arrays s) (ivf_vectorizedParameterIndices this) params n) →
  call_indexed protoChain getMember this r target params s
    = (Throw LengthMismatchError, s).
Proof.
  intros Hmany Hall Hneq. rewrite call_indexed_unfold.
  by erewrite bind_Throw by (by apply check_lengths_unequal).
Qed.

(** X11.  The single-index revision, on the fallback path: with an array of
    length [n] at its position, a scalar method that returns and writes no
    existing array, and more fuel than [n], [call] returns a new array of
    length [n], and the calls recorded are those for the elements
    [0 .. n-1] in ascending order, each with what it returned. *)
Theorem call_single_elementwise fuel m vectorizedParameterIndex (r : registry Obj St)
    target (f : fn) params n (s : state) :
  let index := default 0 vectorizedParameterIndex in
  getMetadata protoChain r target m = None →
  getMember (objects s) target m = MFun f →
  has_vector (arrays s) params index n →
  keeps_arrays f →
  returns f →
  n < fuel →
  let args := element_args (arrays s) [index] params in
  ∃ results s',
    call_single protoChain getMember fuel
      (new_SingleVectorFunction m vectorizedParameterIndex) r target params s
      = Some (Ret (VRef (length (arrays s))), s') ∧
    arrays s' !! length (arrays s) = Some results ∧
    length results = n ∧
    invocations s' = invocations s ++ zip (map args (seq 0 n)) (map Ret results).
Proof.
  intros index Hnone Hf Hv Hkeeps Hreturns Hfuel args.
  pose (this := {| method := m; vectorizedParameterFlags := [];
                   vectorizedParameterIndices := [index]; sliceIndex := index |}).
  change (new_SingleVectorFunction m vectorizedParameterIndex)
    with (new_SingleVectorFunction (method this) (Some index)).
  rewrite (call_single_agrees protoChain getMember fuel this index r target f params n s)
    by done.
  assert (vectors_of_length (arrays s) [index] params n) as Hvec.
  { apply vectors_of_length_cons; [done | apply vectors_of_length_nil]. }
  rewrite call_without_metadata by done. unfold this. cbn [method]. rewrite Hf.
  unfold vectorizeSingularCall. cbn [vectorizedParameterIndices sliceIndex].
  erewrite bind_Ret by (by eapply check_lengths_equal).
  pose proof (elementwise_spec [index] index target f params n (arrays s)
                (invocations s) Hvec
                ltac:(by intros ? ->%list_elem_of_singleton) ltac:(done) Hkeeps
                s (conj eq_refl eq_refl)) as Hspec.
  destruct (elementwise _ _ _ _ _ s) as [[v | e] s'].
  - destruct Hspec as (-> & rs & D & Hlen & HL & _ & _ & _ & _ & Hinv & _).
    exists rs, s'. rewrite Nat.sub_diag, app_nil_r in HL. done.
  - destruct Hspec as [(this' & args' & w & Hthrow) _].
    specialize (Hreturns this' args' w). by rewrite Hthrow in Hreturns.
Qed.

(** X12.  The single-index revision reads the length of the caller's array
    before every iteration: when the scalar method empties that array, the
    loop ends after the first call, and the array that [call] returns has
    the length the caller's array had, with only its first element
    assigned. *)
Theorem call_single_follows_array_length fuel m vectorizedParameterIndex
    (r : registry Obj St) target (f : fn) params l xs (s : state) :
  let index := default 0 vectorizedParameterIndex in
  getMetadata protoChain r target m = None →
  getMember (objects s) target m = MFun f →
  params !! index = Some (VRef l) →
  arrays s !! l = Some xs →
  xs ≠ [] →
  empties l f →
  2 ≤ fuel →
  ∃ v s',
    call_single protoChain getMember fuel
      (new_SingleVectorFunction m vectorizedParameterIndex) r target params s
      = Some (Ret (VRef (length (arrays s))), s') ∧
    invocations s'
      = invocations s ++ [(<[index := default VUndef (xs !! 0)]> params, Ret v)] ∧
    arrays s' !! length (arrays s) = Some (v :: replicate (length xs - 1) VUndef) ∧
    arrays s' !! l = Some [].
Proof.
  intros index Hnone Hf Hp Hl Hxs Hempties Hfuel.
  assert (has_vector (arrays s) params index (length xs)) as Hv by (by exists l, xs).
  assert (param params index = VRef l) as Hparam by (unfold param; by rewrite Hp).
  pose proof (lookup_lt_Some _ _ _ Hl) as HlL.
  pose proof (lookup_lt_Some _ _ _ Hp) as Hindex.
  assert (0 < length xs) as Hn by (destruct xs; [done | cbn; lia]).
  unfold call_single, new_SingleVectorFunction. fold index.
  cbn [svf_method svf_vectorizedParameterIndex].
  unfold specializedFunction_of. rewrite Hnone. cbn [truthy_member truthy objects].
  rewrite Hf, (single_setup_run index target f params (length xs) s) by done.
  destruct fuel as [| [| fuel]]; [lia | lia |].
  set (σ1 := (arrays s ++ [replicate (length xs) VUndef]) ++ [drop index params]).
  assert (σ1 !! l = Some xs) as Hl1.
  { unfold σ1. rewrite <- app_assoc. by apply lookup_app_l_Some. }
  cbn [single_loop]. rewrite Hparam.
  unfold get_length at 1, deref at 1. cbn [arrays]. rewrite Hl1.
  cbn [default from_option id below].
  rewrite bool_decide_eq_true_2 by lia.
  rewrite (single_iteration_eq index).
  pose proof (iteration_exact [index] index target f params) as Hexact.
  cbv zeta in Hexact. cbn [map] in Hexact. rewrite Hparam in Hexact.
  rewrite Hexact.
  2:{ intros vp ->%list_elem_of_singleton. cbn [snd]. split; [done |].
      intros [= ->]. lia. }
  cbn [arrays objects invocations].
  assert (σ1 !! S (length (arrays s)) = Some (drop index params)) as Hd.
  { unfold σ1. apply list_lookup_middle. rewrite length_app. cbn [length]. lia. }
  assert (take index params
          ++ deref (alter (window_after σ1 index 0 [(index, VRef l)])
                      (S (length (arrays s))) σ1) (S (length (arrays s)))
          = <[index := default VUndef (xs !! 0)]> params) as Hargs.
  { unfold deref at 1. rewrite list_lookup_alter_eq, Hd.
    cbn [fmap option_fmap option_map default from_option id].
    rewrite window_after_cons. cbn [window_after foldl fst snd element].
    unfold deref at 1. rewrite Hl1. cbn [default from_option id].
    rewrite Nat.sub_diag.
    rewrite js_set_in_range by (rewrite length_drop; lia).
    rewrite <- (take_drop index params) at 3.
    rewrite insert_app_r_alt by (rewrite length_take; lia).
    by rewrite length_take, Nat.min_l, Nat.sub_diag by lia. }
  rewrite Hargs.
  match goal with
  | |- context [f target ?a (?σ, ?st)] =>
      destruct (Hempties target a σ st) as (v & st' & ->); set (σ2 := σ)
  end.
  assert (length σ1 = S (S (length (arrays s)))) as Hlen1.
  { unfold σ1. rewrite !length_app. cbn [length]. lia. }
  assert (length σ2 = length σ1) as Hlen2 by (unfold σ2; by rewrite length_alter).
  assert (alter (js_set 0 v) (length (arrays s)) (<[l := []]> σ2) !! l = Some []) as Hl3.
  { rewrite list_lookup_alter_ne by lia. apply list_lookup_insert_eq. lia. }
  cbn [single_loop]. unfold get_length at 1, deref at 1. cbn [arrays]. rewrite Hl3.
  cbn [default from_option id length below].
  rewrite bool_decide_eq_false_2 by lia.
  exists v. eexists. split; [reflexivity |]. cbn [arrays invocations].
  split_and!; [done | | done].
  rewrite list_lookup_alter_eq, list_lookup_insert_ne by lia.
  unfold σ2. rewrite list_lookup_alter_ne by lia.
  unfold σ1. rewrite lookup_app_l by (rewrite length_app; cbn [length]; lia).
  rewrite list_lookup_middle by done.
  cbn [fmap option_fmap option_map]. f_equal.
  destruct (length xs) as [| n']; [lia |].
  cbn [replicate]. rewrite js_set_in_range by (cbn [length]; lia).
  cbn. by rewrite Nat.sub_0_r.
Qed.

(** ** The indices the constructor keeps *)

Lemma indices_from_ascending flags k :
  StronglySorted lt
    (map snd (List.filter fst (imap (λ index flag, (flag, k + index)) flags))) ∧
  Forall (λ index, k ≤ index)
    (map snd (List.filter fst (imap (λ index flag, (flag, k + index)) flags))).
Proof.
  revert k. induction flags as [| flag flags IH]; intros k.
  { split; constructor. }
  cbn [imap]. destruct (IH (S k)) as [Hsorted Hlower].
  assert (imap ((λ index flag0, (flag0, k + index)) ∘ S) flags
          = imap (λ index flag0, (flag0, S k + index)) flags) as ->.
  { apply imap_ext. intros i b _. cbn. f_equal. lia. }
  assert (Forall (λ index, k < index)
            (map snd (List.filter fst
                        (imap (λ index flag0, (flag0, S k + index)) flags)))) as Hgreater.
  { eapply Forall_impl; [exact Hlower |]. cbn. lia. }
  destruct flag; cbn [List.filter fst map snd].
  - rewrite Nat.add_0_r. split.
    + by constructor.
    + constructor; [lia |]. eapply Forall_impl; [exact Hgreater |]. cbn. lia.
  - split; [done |]. eapply Forall_impl; [exact Hgreater |]. cbn. lia.
Qed.

(** X13.  The indices an engine keeps are in strictly ascending order, they
    are the positions of the set flags, and [sliceIndex] is the first of
    them. *)
Theorem constructed_indices_ascending m flags this :
  new_ArrayVectorFunction m flags = Ret this →
  StronglySorted lt (vectorizedParameterIndices this) ∧
  (∀ index, index ∈ vectorizedParameterIndices this ↔ flags !! index = Some true) ∧
  head (vectorizedParameterIndices this) = Some (sliceIndex this).
Proof.
  intros Hnew.
  destruct (new_ArrayVectorFunction_Ret _ _ _ Hnew) as (_ & _ & Hindices & _ & Hin & Hlow).
  assert (StronglySorted lt (vectorizedParameterIndices this)) as Hsorted.
  { rewrite Hindices. apply (indices_from_ascending flags 0). }
  split_and!; [done | |].
  - intros index. rewrite Hindices. apply elem_of_indices_of_flags.
  - destruct (vectorizedParameterIndices this) as [| index rest]; [by apply elem_of_nil in Hin |].
    cbn [head]. f_equal.
    apply elem_of_cons in Hin as [-> | Hin]; [done |].
    apply StronglySorted_inv in Hsorted as [_ Hrest].
    rewrite Forall_forall in Hrest. specialize (Hrest _ Hin).
    specialize (Hlow index ltac:(left)). lia.
Qed.

(** ** The index-list revision and the revision with flags *)

(** X14.  The constructor of the index-list revision throws for the empty
    list alone; without a list it vectorizes position [0]; an engine it
    builds keeps the list as given, and its [sliceIndex] is an index of the
    list and the least of them. *)
Theorem index_constructor_cases m vectorizedParameterIndices :
  match new_IndexVectorFunction m vectorizedParameterIndices with
  | Throw e => e = ConfigurationError ∧ vectorizedParameterIndices = Some []
  | Ret this =>
      ivf_method this = m ∧
      ivf_vectorizedParameterIndices this = default [0] vectorizedParameterIndices ∧
      ivf_sliceIndex this ∈ ivf_vectorizedParameterIndices this ∧
      ∀ index, index ∈ ivf_vectorizedParameterIndices this → ivf_sliceIndex this ≤ index
  end.
Proof.
  unfold new_IndexVectorFunction.
  destruct vectorizedParameterIndices as [[| index rest] |];
    cbn [default from_option id ivf_method ivf_vectorizedParameterIndices ivf_sliceIndex].
  - done.
  - split_and!; [done | done | apply Math_min_elem | apply Math_min_lower].
  - split_and!; [done | done | apply Math_min_elem | apply Math_min_lower].
Qed.

(** X15.  The two revisions agree where the lengths are equal: for an engine
    built from flags and an index-list engine built from the positions of
    the set flags, with arrays of one length at these positions, the two
    [call]s give the same outcome and the same state, with or without a
    specialization. *)
Theorem revisions_agree_on_equal_lengths this indexed m flags (r : registry Obj St)
    target params n (s : state) :
  new_ArrayVectorFunction m flags = Ret this →
  new_IndexVectorFunction m (Some (vectorizedParameterIndices this)) = Ret indexed →
  vectors_of_length (arrays s) (vectorizedParameterIndices this) params n →
  call_indexed protoChain getMember indexed r target params s
    = call protoChain getMember this r target params s.
Proof.
  intros Hthis Hindexed Hvec.
  assert (ivf_method indexed = method this ∧
          ivf_vectorizedParameterIndices indexed = vectorizedParameterIndices this ∧
          ivf_sliceIndex indexed = sliceIndex this) as (Hm & Hi & Hs).
  { clear Hvec. unfold new_ArrayVectorFunction in Hthis.
    destruct (indices_of_flags flags) as [| index rest]; [done |].
    injection Hthis as <-.
    cbn [method vectorizedParameterIndices sliceIndex] in *.
    unfold new_IndexVectorFunction in Hindexed.
    cbn [default from_option id] in Hindexed. by injection Hindexed as <-. }
  rewrite (call_indexed_equal_lengths protoChain getMember indexed r target params n)
    by (by rewrite Hi).
  rewrite Hm, Hi, Hs. unfold call, VectorFunction_call.
  rewrite !(bind_Ret (specializedFunction_of protoChain getMember r (method this) target) _ s _ s)
    by reflexivity.
  destruct (truthy_member _); [done |].
  unfold vectorizeSingularCall.
  by rewrite (bind_Ret (check_lengths (vectorizedParameterIndices this) params) _ s tt s)
    by (by eapply check_lengths_equal).
Qed.

End EngineExtras.

(** ** The example program *)

Import Examples.

Lemma unary_keeps_arrays g : keeps_arrays (unary g).
Proof. intros this args σ st r σ' st' [= _ <- _] l a Hl. done. Qed.

Lemma binary_keeps_arrays g : keeps_arrays (binary g).
Proof. intros this args σ st r σ' st' [= _ <- _] l a Hl. done. Qed.

Lemma unary_keeps_array_at l g : keeps_array_at l (unary g).
Proof. by intros this args σ st r σ' st' [= _ <- _]. Qed.

Lemma binary_keeps_array_at l g : keeps_array_at l (binary g).
Proof. by intros this args σ st r σ' st' [= _ <- _]. Qed.

Lemma unary_returns g : returns (unary g).
Proof. by intros this args w. Qed.

(** The engines of the examples are what the constructors build. *)
Lemma engines_constructed :
  new_ArrayVectorFunction (KStr "calc") [true] = Ret MathOp_calc_vectorized ∧
  new_ArrayVectorFunction (KStr "calc") [true; true] = Ret MathOp_calc2_vectorized ∧
  new_ArrayVectorFunction (KStr "scaleThenAdd") [false; true] = Ret scaleThenAdd_vectorized ∧
  new_IndexVectorFunction (KStr "calc") (Some [0; 1]) = Ret MathOp_calc2_indexed.
Proof. by split_and!. Qed.

(** C8.  The engine built for [scaleThenAdd] with a static position [0] and
    a vectorized position [1], called on a target without specialization
    with [3] and [[1, 2, 3]], returns the new array [[4, 7, 10]]. *)
Theorem scaleThenAdd_scenario :
  new_ArrayVectorFunction (KStr "scaleThenAdd") [false; true]
    = Ret scaleThenAdd_vectorized ∧
  getMetadata protoChain registry (Instance Scaler) (KStr "scaleThenAdd") = None ∧
  ∃ s',
    call protoChain getMember scaleThenAdd_vectorized registry (Instance Scaler)
      [VNum 3; VRef 0] (initially [numbers [1; 2; 3]%Z])
      = (Ret (VRef 1), s') ∧
    arrays s' !! 1 = Some (numbers [4; 7; 10]%Z).
Proof. split; [done |]. split; [done |]. eexists. split; [vm_compute; reflexivity | done]. Qed.

(** The single-index revision on the squares of [[2, 3, 4]]. *)
Lemma call_single_scenario :
  ∃ s',
    call_single protoChain getMember 4 (new_SingleVectorFunction (KStr "calc") None)
      registry (Instance Squarer) [VRef 0] (initially [numbers [2; 3; 4]%Z])
      = Some (Ret (VRef 1), s') ∧
    arrays s' !! 1 = Some (numbers [4; 9; 16]%Z).
Proof. eexists. split; [vm_compute; reflexivity | done]. Qed.

(** The index-list revision rejects a call with a registered specialization
    when the lengths differ, where [call] of [src/vectorized.ts] calls the
    specialization. *)
Lemma call_indexed_rejects_specialized :
  let s := initially [numbers [5; 5]%Z; numbers [2]%Z] in
  getMetadata protoChain registry (Instance Multiplier) (KStr "calc")
    = Some (SFun mul_vectorized) ∧
  call_indexed protoChain getMember MathOp_calc2_indexed registry (Instance Multiplier)
    [VRef 0; VRef 1] s
    = (Throw LengthMismatchError, s) ∧
  call protoChain getMember MathOp_calc2_vectorized registry (Instance Multiplier)
    [VRef 0; VRef 1] s
    = apply_fn mul_vectorized (Instance Multiplier) [VRef 0; VRef 1] s.
Proof. by split_and!. Qed.


(** ** The theorems at the example program *)


Lemma call_fallback_length_mismatch_witness :
  call protoChain getMember MathOp_calc2_vectorized registry (Instance Subtractor)
    [VRef 0; VRef 1] (initially [numbers [5; 5]%Z; numbers [2]%Z])
  = (Throw LengthMismatchError, initially [numbers [5; 5]%Z; numbers [2]%Z]).
Proof.
  apply (call_fallback_length_mismatch protoChain getMember MathOp_calc2_vectorized
           (KStr "calc") [true; true]).
  - reflexivity.
  - reflexivity.
  - cbn. lia.
  - intros index [-> | [-> | []%elem_of_nil]%elem_of_cons]%elem_of_cons.
    + exists 2. by exists 0, (numbers [5; 5]%Z).
    + exists 1. by exists 1, (numbers [2]%Z).
  - apply (unequal_lengths _ _ _ 0 1 2 1).
    + left.
    + right. left.
    + by exists 0, (numbers [5; 5]%Z).
    + by exists 1, (numbers [2]%Z).
    + lia.
Defined.

Lemma constructor_rejects_no_vectorized_witness :
  new_ArrayVectorFunction (KStr "calc") [false; false] = Throw ConfigurationError.
Proof.
  apply constructor_rejects_no_vectorized. by intros [| [| index]].
Defined.

Lemma static_arguments_pass_through_witness :
  let this := {| method := KStr "scaleThenAdd";
                 vectorizedParameterFlags := [false; true; false];
                 vectorizedParameterIndices := [1]; sliceIndex := 1 |} in
  let s := initially [numbers [1; 2; 3]%Z] in
  let after :=
    call protoChain getMember this registry (Instance Scaler)
      [VNum 3; VRef 0; VNum 9] s in
  ∃ evs,
    invocations after.2 = evs ∧
    length evs = 3 ∧
    ∀ ev : event, ev ∈ evs → ev.1 !! 0 = Some (VNum 3) ∧ ev.1 !! 2 = Some (VNum 9).
Proof.
  intros this s after.
  destruct (static_arguments_pass_through protoChain getMember this
              (KStr "scaleThenAdd") [false; true; false] registry (Instance Scaler)
              scaleThenAdd [VNum 3; VRef 0; VNum 9] s after.1 after.2)
    as [_ (evs & Hinv & Hevs & Hcount)].
  - reflexivity.
  - reflexivity.
  - reflexivity.
  - apply binary_keeps_array_at.
  - apply surjective_pairing.
  - exists evs. split; [exact Hinv |]. split.
    + refine (Hcount 3 _).
      apply vectors_of_length_cons; [| apply vectors_of_length_nil].
      by exists 0, (numbers [1; 2; 3]%Z).
    + intros ev Hev. destruct (Hevs ev Hev) as [Hstatic Hwindow]. split.
      * apply (Hstatic 0). cbn. lia.
      * apply (Hwindow 2); [cbn; lia | discriminate].
Defined.

Lemma call_fallback_empty_witness :
  ∃ s',
    call protoChain getMember MathOp_calc_vectorized registry (Instance Squarer)
      [VRef 0] (initially [[]])
      = (Ret (VRef 1), s') ∧
    arrays s' !! 1 = Some [] ∧
    invocations s' = [] ∧
    objects s' = tt.
Proof.
  apply (call_fallback_empty protoChain getMember MathOp_calc_vectorized
           (KStr "calc") [true] registry (Instance Squarer) square [VRef 0]
           (initially [[]])).
  - reflexivity.
  - reflexivity.
  - reflexivity.
  - apply vectors_of_length_cons; [| apply vectors_of_length_nil].
    by exists 0, [].
Defined.

Lemma call_fallback_frame_witness :
  let s := initially [numbers [2; 3; 4]%Z] in
  arrays (call protoChain getMember MathOp_calc_vectorized registry (Instance Squarer)
            [VRef 0] s).2 !! 0
  = Some (numbers [2; 3; 4]%Z).
Proof.
  intros s.
  apply (call_fallback_frame protoChain getMember MathOp_calc_vectorized registry
           (Instance Squarer) [VRef 0] s 0) with
    (o := (call protoChain getMember MathOp_calc_vectorized registry (Instance Squarer)
             [VRef 0] s).1).
  - reflexivity.
  - cbn. lia.
  - intros f [= <-]. apply unary_keeps_array_at.
  - apply surjective_pairing.
Defined.

Lemma call_specialized_witness :
  let s := initially [numbers [5; 5]%Z; numbers [2]%Z] in
  call protoChain getMember MathOp_calc2_vectorized registry (Instance Multiplier)
    [VRef 0; VRef 1] s
  = apply_fn mul_vectorized (Instance Multiplier) [VRef 0; VRef 1] s ∧
  call_indexed protoChain getMember MathOp_calc2_indexed registry (Instance Multiplier)
    [VRef 0; VRef 1] s
  = (Throw LengthMismatchError, s).
Proof.
  intros s.
  destruct (call_specialized protoChain getMember MathOp_calc2_vectorized
              MathOp_calc2_indexed registry (Instance Multiplier) [VRef 0; VRef 1] s
              (SFun mul_vectorized) mul_vectorized eq_refl eq_refl eq_refl eq_refl)
    as (Hcall & _ & Hrejected & _).
  split; [exact Hcall |]. apply Hrejected.
  - cbn. lia.
  - intros index [-> | [-> | []%elem_of_nil]%elem_of_cons]%elem_of_cons.
    + exists 2. by exists 0, (numbers [5; 5]%Z).
    + exists 1. by exists 1, (numbers [2]%Z).
  - apply (unequal_lengths _ _ _ 0 1 2 1).
    + left.
    + right. left.
    + by exists 0, (numbers [5; 5]%Z).
    + by exists 1, (numbers [2]%Z).
    + lia.
Defined.

Lemma override_binding_witness :
  let s := initially [numbers [1; 2]%Z] in
  call protoChain getMember MathOp_calc_vectorized
    (vectorized None (Prototype Doubler) (KStr "calc") no_metadata)
    (Instance FastDoubler) [VRef 0] s
  = apply_fn double_fast (Instance FastDoubler) [VRef 0] s.
Proof.
  intros s.
  assert (∀ o, o ∈ [Instance FastDoubler; Prototype FastDoubler] →
               o ≠ Prototype Doubler ∧
               @no_metadata object unit o (method MathOp_calc_vectorized) = None)
    as Hnearer.
  { by intros o [-> | [-> | []%elem_of_nil]%elem_of_cons]%elem_of_cons. }
  exact (override_binding protoChain getMember MathOp_calc_vectorized no_metadata
           (Prototype Doubler) None (Instance FastDoubler)
           [Instance FastDoubler; Prototype FastDoubler] [] [VRef 0] s
           eq_refl Hnearer eq_refl double_fast eq_refl).
Defined.

Lemma unresolved_name_falls_back_witness :
  let s := initially [numbers [1; 2]%Z] in
  call protoChain getMember MathOp_calc_vectorized registry (Instance Negator) [VRef 0] s
  = vectorizeSingularCall MathOp_calc_vectorized (Instance Negator) (MFun negate)
      [VRef 0] s.
Proof.
  intros s.
  exact (unresolved_name_falls_back protoChain getMember MathOp_calc_vectorized registry
           (Instance Negator) [VRef 0] s (KStr "calc_fast") eq_refl eq_refl).
Defined.

(** ** The further properties at the example programs *)

Lemma binary_returns g : returns (binary g).
Proof. by intros this args w. Qed.

Lemma reject_negative_keeps_arrays : keeps_arrays Probe.reject_negative.
Proof.
  intros this args σ st r σ' st' Hcall l a Hl. unfold Probe.reject_negative in Hcall.
  destruct (param args 0) as [| x |]; [| destruct (decide (x < 0)%Z) |];
    by injection Hcall as _ <- _.
Qed.

Lemma empty_first_array_returns : returns Probe.empty_first_array.
Proof. by intros this args w. Qed.

Lemma empty_first_array_empties : empties 0 Probe.empty_first_array.
Proof. intros this args σ st. by exists (param args 0), st. Qed.

Lemma one_vector (σ : store) l a :
  σ !! l = Some a → vectors_of_length σ [0] [VRef l] (length a).
Proof.
  intros Hl. apply vectors_of_length_cons; [| apply vectors_of_length_nil].
  by exists l, a.
Qed.

Lemma two_vectors (σ : store) l1 l2 a1 a2 :
  σ !! l1 = Some a1 → σ !! l2 = Some a2 → length a2 = length a1 →
  vectors_of_length σ [0; 1] [VRef l1; VRef l2] (length a1).
Proof.
  intros Hl1 Hl2 Hlen.
  apply vectors_of_length_cons; [| apply vectors_of_length_cons];
    [| | apply vectors_of_length_nil].
  - by exists l1, a1.
  - rewrite <- Hlen. by exists l2, a2.
Qed.

Lemma call_fallback_first_throw_witness :
  let s := Probe.initially [numbers [1; -2; 3]%Z] 0 in
  let after :=
    call Probe.protoChain Probe.getMember (Probe.over_array "check") no_metadata tt
      [VRef 0] s in
  let args := element_args (arrays s) [0] [VRef 0] in
  after.1 = Throw (Raised (VNum (-2))) ∧
  ∃ i results,
    i < 3 ∧ length results = i ∧
    invocations after.2
      = invocations s ++ zip (map args (seq 0 i)) (map Ret results)
                      ++ [(args i, Throw (Raised (VNum (-2))))] ∧
    ∃ w, (Probe.reject_negative tt (args i) w).1 = Throw (Raised (VNum (-2))).
Proof.
  intros s after args. split; [reflexivity |].
  apply (call_fallback_first_throw Probe.protoChain Probe.getMember
           (Probe.over_array "check") (KStr "check") [true] no_metadata tt
           Probe.reject_negative [VRef 0] 3 s (Raised (VNum (-2))) after.2).
  - reflexivity.
  - reflexivity.
  - reflexivity.
  - apply (one_vector (arrays s) 0 (numbers [1; -2; 3]%Z)). reflexivity.
  - apply reject_negative_keeps_arrays.
  - reflexivity.
Defined.

Lemma call_fallback_threads_state_witness :
  let s := Probe.initially [numbers [1; 2; 3]%Z] 10 in
  let after :=
    call Probe.protoChain Probe.getMember (Probe.over_array "total") no_metadata tt
      [VRef 0] s in
  after.1 = Ret (VRef 1) ∧
  arrays after.2 !! 1 = Some (numbers [11; 13; 16]%Z) ∧
  objects after.2 = 16%Z.
Proof.
  intros s after.
  exact (call_fallback_threads_state Probe.protoChain Probe.getMember
           (Probe.over_array "total") (KStr "total") [true] no_metadata tt
           Probe.add_to_total [VRef 0] 3 s eq_refl eq_refl eq_refl
           (one_vector (arrays s) 0 (numbers [1; 2; 3]%Z) eq_refl)).
Defined.

Lemma call_fallback_missing_vector_witness :
  let s := initially [numbers [2; 3]%Z] in
  call protoChain getMember MathOp_calc_vectorized registry (Instance Squarer) [] s
  = (Throw TypeError, s).
Proof.
  intros s.
  apply (call_fallback_missing_vector protoChain getMember MathOp_calc_vectorized
           (KStr "calc") [true] registry (Instance Squarer) [] 0 s).
  - reflexivity.
  - reflexivity.
  - left.
  - reflexivity.
Defined.

Lemma call_fallback_number_for_vector_witness :
  let s := initially [] in
  let after :=
    call protoChain getMember MathOp_calc_vectorized registry (Instance Squarer)
      [VNum 5] s in
  ∃ outcome_of_call,
    invocations after.2 = [([VUndef], outcome_of_call)] ∧
    after.1 = match outcome_of_call with
              | Ret _ => Ret (VRef 0)
              | Throw e => Throw e
              end.
Proof.
  intros s after.
  exact (call_fallback_number_for_vector protoChain getMember MathOp_calc_vectorized
           (KStr "calc") [true] registry (Instance Squarer) square [VNum 5] 0 5 s
           eq_refl eq_refl eq_refl eq_refl eq_refl).
Defined.

Lemma call_fallback_missing_method_witness :
  let s := Probe.initially [numbers [1; 2]%Z] 0 in
  call Probe.protoChain Probe.getMember (Probe.over_array "absent") Probe.registry tt
    [VRef 0] s
  = (Throw TypeError,
     State [numbers [1; 2]%Z; [VUndef; VUndef]; [VRef 0]] 0%Z []).
Proof.
  intros s.
  exact (call_fallback_missing_method Probe.protoChain Probe.getMember
           (Probe.over_array "absent") (KStr "absent") [true] Probe.registry tt
           VUndef [VRef 0] 2 s eq_refl eq_refl eq_refl
           (one_vector (arrays s) 0 (numbers [1; 2]%Z) eq_refl)).
Defined.

Lemma call_member_not_a_function_witness :
  let s := Probe.initially [numbers [1; 2]%Z] 0 in
  call Probe.protoChain Probe.getMember (Probe.over_array "report") Probe.registry tt
    [VRef 0] s
  = (Throw TypeError, s).
Proof.
  intros s.
  exact (call_member_not_a_function Probe.protoChain Probe.getMember
           (Probe.over_array "report") Probe.registry tt [VRef 0] s
           (KStr "version") (VNum 1) eq_refl eq_refl eq_refl eq_refl).
Defined.

Lemma call_ignores_other_declarations_witness :
  let s := initially [numbers [2; 3]%Z] in
  call protoChain getMember MathOp_calc_vectorized
    (vectorized (Some (SFun mul_vectorized)) (Prototype Squarer) (KStr "scaleThenAdd")
       registry)
    (Instance Squarer) [VRef 0] s
  = call protoChain getMember MathOp_calc_vectorized registry (Instance Squarer)
      [VRef 0] s.
Proof.
  intros s.
  apply (call_ignores_other_declarations protoChain getMember MathOp_calc_vectorized
           registry (Some (SFun mul_vectorized)) (Prototype Squarer)
           (KStr "scaleThenAdd") (Instance Squarer) [VRef 0] s).
  left. discriminate.
Defined.

Lemma call_fallback_call_count_witness :
  let s := Probe.initially [numbers [1; 2; 3]%Z] 0 in
  ∃ s',
    call Probe.protoChain Probe.getMember (Probe.over_array "drain") no_metadata tt
      [VRef 0] s
      = (Ret (VRef 1), s') ∧
    length (invocations s') = 3.
Proof.
  intros s.
  exact (call_fallback_call_count Probe.protoChain Probe.getMember
           (Probe.over_array "drain") (KStr "drain") [true] no_metadata tt
           Probe.empty_first_array [VRef 0] 3 s eq_refl eq_refl eq_refl
           (one_vector (arrays s) 0 (numbers [1; 2; 3]%Z) eq_refl)
           empty_first_array_returns).
Defined.

Lemma call_indexed_elementwise_witness :
  let s := initially [numbers [5; 5]%Z; numbers [2; 3]%Z] in
  let args := element_args (arrays s) [0; 1] [VRef 0; VRef 1] in
  ∃ results s',
    call_indexed protoChain getMember MathOp_calc2_indexed registry (Instance Subtractor)
      [VRef 0; VRef 1] s
      = (Ret (VRef 2), s') ∧
    arrays s' !! 2 = Some results ∧
    length results = 2 ∧
    invocations s' = zip (map args (seq 0 2)) (map Ret results).
Proof.
  intros s args.
  exact (call_indexed_elementwise protoChain getMember MathOp_calc2_indexed
           (KStr "calc") (Some [0; 1]) registry (Instance Subtractor) sub
           [VRef 0; VRef 1] 2 s eq_refl eq_refl eq_refl
           (two_vectors (arrays s) 0 1 (numbers [5; 5]%Z) (numbers [2; 3]%Z)
              eq_refl eq_refl eq_refl)
           (binary_keeps_arrays _) (binary_returns _)).
Defined.

Lemma call_indexed_rejects_unequal_lengths_witness :
  let s := initially [numbers [1; 2; 3]%Z; numbers [4]%Z] in
  call_indexed protoChain getMember MathOp_calc2_indexed registry (Instance Inverter)
    [VRef 0; VRef 1] s
  = (Throw LengthMismatchError, s).
Proof.
  intros s.
  apply (call_indexed_rejects_unequal_lengths protoChain getMember MathOp_calc2_indexed
           registry (Instance Inverter) [VRef 0; VRef 1] s).
  - cbn. lia.
  - intros index [-> | [-> | []%elem_of_nil]%elem_of_cons]%elem_of_cons.
    + exists 3. by exists 0, (numbers [1; 2; 3]%Z).
    + exists 1. by exists 1, (numbers [4]%Z).
  - apply (unequal_lengths _ _ _ 0 1 3 1).
    + left.
    + right. left.
    + by exists 0, (numbers [1; 2; 3]%Z).
    + by exists 1, (numbers [4]%Z).
    + lia.
Defined.

Lemma call_single_elementwise_witness :
  let s := initially [numbers [2; 3; 4]%Z] in
  let args := element_args (arrays s) [0] [VRef 0] in
  ∃ results s',
    call_single protoChain getMember 4 (new_SingleVectorFunction (KStr "calc") None)
      registry (Instance Squarer) [VRef 0] s
      = Some (Ret (VRef 1), s') ∧
    arrays s' !! 1 = Some results ∧
    length results = 3 ∧
    invocations s' = zip (map args (seq 0 3)) (map Ret results).
Proof.
  intros s args.
  apply (call_single_elementwise protoChain getMember 4 (KStr "calc") None registry
           (Instance Squarer) square [VRef 0] 3 s).
  - reflexivity.
  - reflexivity.
  - by exists 0, (numbers [2; 3; 4]%Z).
  - apply unary_keeps_arrays.
  - apply unary_returns.
  - lia.
Defined.

Lemma call_single_follows_array_length_witness :
  let s := Probe.initially [numbers [7; 8; 9]%Z] 0 in
  ∃ v s',
    call_single Probe.protoChain Probe.getMember 5
      (new_SingleVectorFunction (KStr "drain") None) no_metadata tt [VRef 0] s
      = Some (Ret (VRef 1), s') ∧
    invocations s' = [([VNum 7], Ret v)] ∧
    arrays s' !! 1 = Some [v; VUndef; VUndef] ∧
    arrays s' !! 0 = Some [].
Proof.
  intros s.
  apply (call_single_follows_array_length Probe.protoChain Probe.getMember 5
           (KStr "drain") None no_metadata tt Probe.empty_first_array [VRef 0] 0
           (numbers [7; 8; 9]%Z) s).
  - reflexivity.
  - reflexivity.
  - reflexivity.
  - reflexivity.
  - discriminate.
  - apply empty_first_array_empties.
  - lia.
Defined.

Lemma constructed_indices_ascending_witness :
  StronglySorted lt [1; 2] ∧
  (∀ index, index ∈ [1; 2] ↔ [false; true; true] !! index = Some true) ∧
  head [1; 2] = Some 1.
Proof.
  exact (constructed_indices_ascending (KStr "scaleThenAdd") [false; true; true]
           {| method := KStr "scaleThenAdd";
              vectorizedParameterFlags := [false; true; true];
              vectorizedParameterIndices := [1; 2]; sliceIndex := 1 |}
           eq_refl).
Defined.

Lemma revisions_agree_on_equal_lengths_witness :
  let s := initially [numbers [5; 5]%Z; numbers [2; 3]%Z] in
  call_indexed protoChain getMember MathOp_calc2_indexed registry (Instance Subtractor)
    [VRef 0; VRef 1] s
  = call protoChain getMember MathOp_calc2_vectorized registry (Instance Subtractor)
      [VRef 0; VRef 1] s.
Proof.
  intros s.
  exact (revisions_agree_on_equal_lengths protoChain getMember MathOp_calc2_vectorized
           MathOp_calc2_indexed (KStr "calc") [true; true] registry
           (Instance Subtractor) [VRef 0; VRef 1] 2 s eq_refl eq_refl
           (two_vectors (arrays s) 0 1 (numbers [5; 5]%Z) (numbers [2; 3]%Z)
              eq_refl eq_refl eq_refl)).
Defined.
